(** * apidoc: the document builder, the tag parser and the block scanner

  A shallow embedding of three parts of the apidoc sources:

  - [types.Doc.getOperation] / [types.Doc.parseAPI]   (package types),
  - [parser.parseAPI], [api.parseAPI], [api.parseRequest] (parser/api.go),
  - [Input.parseFile]                                  (package build).

  Go strings and byte slices are Rocq [string]s (sequences of bytes),
  Go maps are stdpp [gmap]s, pointers into the document are modelled as
  the location they designate, and loops whose termination is not
  structural carry a fuel argument. *)

From Stdlib Require Import Ascii String ZArith Lia.
From stdpp Require Import base option list gmap strings.

Local Open Scope Z_scope.

(** ** The Go standard library functions the sources call *)

Module GoStd.

(** Lower/upper case of one ASCII byte; bytes outside a-z / A-Z are kept.
    (The Go functions also map the non-ASCII runes that have a case
    counterpart; the embedding covers ASCII input.) *)
Definition upper_byte (c : ascii) : ascii :=
  let n := nat_of_ascii c in
  if ((97 <=? n) && (n <=? 122))%nat then ascii_of_nat (n - 32) else c.

Definition lower_byte (c : ascii) : ascii :=
  let n := nat_of_ascii c in
  if ((65 <=? n) && (n <=? 90))%nat then ascii_of_nat (n + 32) else c.

(** strings.ToUpper *)
Fixpoint ToUpper (s : string) : string :=
  match s with
  | EmptyString => EmptyString
  | String c r => String (upper_byte c) (ToUpper r)
  end.

(** bytes.ToLower *)
Fixpoint ToLower (s : string) : string :=
  match s with
  | EmptyString => EmptyString
  | String c r => String (lower_byte c) (ToLower r)
  end.

(** len(s) *)
Definition len (s : string) : Z := Z.of_nat (String.length s).

(** s[:n] and s[n:] for 0 <= n <= len(s) *)
Fixpoint take (n : nat) (s : string) : string :=
  match n, s with
  | S n', String c r => String c (take n' r)
  | _, _ => EmptyString
  end.

Fixpoint drop (n : nat) (s : string) : string :=
  match n, s with
  | S n', String _ r => drop n' r
  | _, _ => s
  end.

(** Offset of the first byte [c] of [s], if any. *)
Fixpoint index_byte (s : string) (c : ascii) : option nat :=
  match s with
  | EmptyString => None
  | String a r =>
      if Ascii.eqb a c then Some 0%nat else S <$> index_byte r c
  end.

(** bytes.IndexByte: -1 when [c] does not occur. *)
Definition IndexByte (s : string) (c : ascii) : Z :=
  match index_byte s c with
  | Some i => Z.of_nat i
  | None => -1
  end.

(** The loop of strings.genSplit for a one-byte separator: at most [k]
    more cuts, the rest of the string is the last field. *)
Fixpoint splitLoop (k : nat) (s : string) (sep : ascii) : list string :=
  match k with
  | O => [s]
  | S k' =>
      match index_byte s sep with
      | None => [s]
      | Some m => take m s :: splitLoop k' (drop (S m) s) sep
      end
  end.

(** strings.SplitN(s, sep, n) for a one-byte [sep] and n >= 0. *)
Definition SplitN (s : string) (sep : ascii) (n : nat) : list string :=
  match n with
  | O => []
  | S k => splitLoop k s sep
  end.

End GoStd.

(** ** Package openapi: the fields the sources read or write *)

Module openapi.

Record Schema := mkSchema {
  Type_ : string;
  Default : string
}.

Record MediaType := mkMediaType {
  Schema_ : option Schema
}.

Record RequestBody := mkRequestBody {
  Content : gmap string MediaType
}.

Record Response := mkResponse {
  RDescription : string
}.

Inductive ParameterIN := ParameterINQuery | ParameterINPath.

Record Parameter_ := mkParameter {
  Name : string;
  IN : ParameterIN;
  PDescription : string;
  Required : bool;
  AllowEmptyValue : bool;
  PSchema : option Schema
}.

Record Operation := mkOperation {
  Tags : list string;
  Description : string;
  Deprecated : bool;
  OperationID : string;
  RequestBody_ : option RequestBody;
  Responses : option (gmap string Response)
}.

(** [&openapi.Operation{}] *)
Definition Operation0 : Operation :=
  mkOperation [] EmptyString false EmptyString None None.

Record PathItem := mkPathItem {
  Get : option Operation;
  Put : option Operation;
  Post : option Operation;
  Delete : option Operation;
  Options : option Operation;
  Head : option Operation;
  Patch : option Operation;
  Trace : option Operation
}.

(** [&openapi.PathItem{}] *)
Definition PathItem0 : PathItem :=
  mkPathItem None None None None None None None None.

Record OpenAPI := mkOpenAPI {
  Paths : option (gmap string PathItem)   (* None is the nil map *)
}.

End openapi.

(** ** Package types: the document builder *)

Module types.
Import GoStd openapi.

(** API: the documentation of one endpoint as the builder receives it.
    [API] is the text after @api: method, url and summary. *)
Record API := mkAPI {
  API_ : string;
  Group : string;
  ATags : list string;
  ADescription : string;
  ADeprecated : bool;
  AOperationID : string;
  Queries : list string;
  Params : list string;
  Headers : list string
}.

(** Doc: the part of the document that [getOperation] and [parseAPI] touch.
    The mutex [doc.locker] serialises callers; one call is one atomic
    state transition here. *)
Record Doc := mkDoc {
  OpenAPI_ : OpenAPI
}.

(** The errors built with errors.New in getOperation, by message. *)
Inductive error :=
| ErrMissingArgs                 (* "缺少参数" *)
| ErrRouteExists (m : string)    (* "已经存在一个相同的 <m> 路由" *)
| ErrInvalidMethod.              (* "无效的请法语方法" *)

(** The field of a PathItem a returned [*openapi.Operation] points into. *)
Inductive slot := SGet | SDelete | SPost | SPut | SPatch | SOptions | SHead | STrace.

#[export] Instance slot_eq_dec : EqDecision slot.
Proof. solve_decision. Defined.

(** A pointer to an operation of the document: the path key and the field. *)
Definition opref : Type := string * slot.

Definition set_Get (o : option Operation) (p : PathItem) : PathItem :=
  mkPathItem o (Put p) (Post p) (Delete p) (Options p) (Head p) (Patch p) (Trace p).
Definition set_Put (o : option Operation) (p : PathItem) : PathItem :=
  mkPathItem (Get p) o (Post p) (Delete p) (Options p) (Head p) (Patch p) (Trace p).
Definition set_Post (o : option Operation) (p : PathItem) : PathItem :=
  mkPathItem (Get p) (Put p) o (Delete p) (Options p) (Head p) (Patch p) (Trace p).
Definition set_Delete (o : option Operation) (p : PathItem) : PathItem :=
  mkPathItem (Get p) (Put p) (Post p) o (Options p) (Head p) (Patch p) (Trace p).
Definition set_Options (o : option Operation) (p : PathItem) : PathItem :=
  mkPathItem (Get p) (Put p) (Post p) (Delete p) o (Head p) (Patch p) (Trace p).
Definition set_Head (o : option Operation) (p : PathItem) : PathItem :=
  mkPathItem (Get p) (Put p) (Post p) (Delete p) (Options p) o (Patch p) (Trace p).
Definition set_Patch (o : option Operation) (p : PathItem) : PathItem :=
  mkPathItem (Get p) (Put p) (Post p) (Delete p) (Options p) (Head p) o (Trace p).
Definition set_Trace (o : option Operation) (p : PathItem) : PathItem :=
  mkPathItem (Get p) (Put p) (Post p) (Delete p) (Options p) (Head p) (Patch p) o.

Definition slot_get (s : slot) (p : PathItem) : option Operation :=
  match s with
  | SGet => Get p | SDelete => Delete p | SPost => Post p | SPut => Put p
  | SPatch => Patch p | SOptions => Options p | SHead => Head p | STrace => Trace p
  end.

Definition slot_set (s : slot) (o : option Operation) (p : PathItem) : PathItem :=
  match s with
  | SGet => set_Get o p | SDelete => set_Delete o p | SPost => set_Post o p
  | SPut => set_Put o p | SPatch => set_Patch o p | SOptions => set_Options o p
  | SHead => set_Head o p | STrace => set_Trace o p
  end.

(** What [getOperation] hands back: the pointer or the error. *)
Inductive result :=
| Ok (r : opref)
| Err (e : error).

Definition withPaths (m : gmap string PathItem) : Doc :=
  mkDoc (mkOpenAPI (Some m)).

(** doc.getOperation(api).  The result is the document after the call
    (the call writes [doc.OpenAPI.Paths] and the PathItem) with the value
    returned. *)
Definition getOperation (doc : Doc) (api : API) : Doc * result :=
  (* if doc.OpenAPI.Paths == nil { doc.OpenAPI.Paths = make(...) } *)
  let paths0 : gmap string PathItem :=
    match Paths (OpenAPI_ doc) with
    | None => ∅
    | Some m => m
    end in
  match SplitN (API_ api) " "%char 3 with
  | [strs0; strs1; strs2] =>
      (* path, found := doc.OpenAPI.Paths[strs[1]] *)
      let '(path, paths) :=
        match paths0 !! strs1 with
        | Some p => (p, paths0)
        | None => (PathItem0, <[strs1 := PathItem0]> paths0)
        end in
      let m := ToUpper strs0 in
      if String.eqb m "GET" then
        match Get path with
        | Some _ => (withPaths paths, Err (ErrRouteExists "Get"))
        | None => (withPaths (<[strs1 := set_Get (Some Operation0) path]> paths),
                   Ok (strs1, SGet))
        end
      else if String.eqb m "DELETE" then
        match Delete path with
        | Some _ => (withPaths paths, Err (ErrRouteExists "Delete"))
        | None => (withPaths (<[strs1 := set_Delete (Some Operation0) path]> paths),
                   Ok (strs1, SDelete))
        end
      else if String.eqb m "POST" then
        match Post path with
        | Some _ => (withPaths paths, Err (ErrRouteExists "Post"))
        | None => (withPaths (<[strs1 := set_Post (Some Operation0) path]> paths),
                   Ok (strs1, SPost))
        end
      else if String.eqb m "PUT" then
        match Put path with
        | Some _ => (withPaths paths, Err (ErrRouteExists "Put"))
        | None => (withPaths (<[strs1 := set_Put (Some Operation0) path]> paths),
                   Ok (strs1, SPut))
        end
      else if String.eqb m "PATCH" then
        match Patch path with
        | Some _ => (withPaths paths, Err (ErrRouteExists "Patch"))
        | None => (withPaths (<[strs1 := set_Patch (Some Operation0) path]> paths),
                   Ok (strs1, SPatch))
        end
      else if String.eqb m "OPTIONS" then
        match Options path with
        | Some _ => (withPaths paths, Err (ErrRouteExists "Options"))
        | None => (withPaths (<[strs1 := set_Options (Some Operation0) path]> paths),
                   Ok (strs1, SOptions))
        end
      else if String.eqb m "HEAD" then
        match Head path with
        | Some _ => (withPaths paths, Err (ErrRouteExists "Head"))
        | None => (withPaths (<[strs1 := set_Head (Some Operation0) path]> paths),
                   Ok (strs1, SHead))
        end
      else if String.eqb m "TRACE" then
        match Trace path with
        | Some _ => (withPaths paths, Err (ErrRouteExists "Trace"))
        | None => (withPaths (<[strs1 := set_Trace (Some Operation0) path]> paths),
                   Ok (strs1, STrace))
        end
      else (withPaths paths, Err ErrInvalidMethod)
  | _ => (withPaths paths0, Err ErrMissingArgs)
  end.

(** The writes of [parseAPI] through the pointer [o]: the four copied
    fields, then [o.RequestBody = &openapi.RequestBody{}] and
    [o.Responses = make(...)].  ([api.parseParameter] returns nil and writes
    nothing.) *)
Definition fill (api : API) (o : Operation) : Operation :=
  mkOperation (ATags api) (ADescription api) (ADeprecated api) (AOperationID api)
              (Some (mkRequestBody ∅)) (Some ∅).

(** Writing through an [opref]. *)
Definition update (r : opref) (f : Operation -> Operation) (doc : Doc) : Doc :=
  match Paths (OpenAPI_ doc) with
  | None => doc
  | Some m =>
      match m !! r.1 with
      | None => doc
      | Some p => withPaths (<[r.1 := slot_set r.2 (f <$> slot_get r.2 p) p]> m)
      end
  end.

(** doc.parseAPI(api): the document after the call and the error returned
    ([None] is nil). *)
Definition parseAPI (doc : Doc) (api : API) : Doc * option error :=
  match getOperation doc api with
  | (doc1, Err e) => (doc1, Some e)
  | (doc1, Ok o) => (update o (fill api) doc1, None)
  end.

(** Feeding the builder a sequence of APIs, errors reported and the
    pipeline going on. *)
Definition addAll (doc : Doc) (apis : list API) : Doc :=
  foldl (fun d a => (parseAPI d a).1) doc apis.

(** Reading the document: the operation at (path, method field). *)
Definition opAt (doc : Doc) (path : string) (s : slot) : option Operation :=
  match Paths (OpenAPI_ doc) with
  | None => None
  | Some m => m !! path ≫= slot_get s
  end.

(** The PathItem stored under a path. *)
Definition itemAt (doc : Doc) (path : string) : option PathItem :=
  match Paths (OpenAPI_ doc) with
  | None => None
  | Some m => m !! path
  end.

(** The paths map and the PathItem [getOperation] works on once the nil
    check and the lookup are done. *)
Definition pathsOf (doc : Doc) : gmap string PathItem :=
  default ∅ (Paths (OpenAPI_ doc)).

Definition itemOf (doc : Doc) (p : string) : PathItem :=
  default PathItem0 (pathsOf doc !! p).

(** The method field the switch of [getOperation] selects. *)
Definition methodSlot (m : string) : option slot :=
  if String.eqb m "GET" then Some SGet
  else if String.eqb m "DELETE" then Some SDelete
  else if String.eqb m "POST" then Some SPost
  else if String.eqb m "PUT" then Some SPut
  else if String.eqb m "PATCH" then Some SPatch
  else if String.eqb m "OPTIONS" then Some SOptions
  else if String.eqb m "HEAD" then Some SHead
  else if String.eqb m "TRACE" then Some STrace
  else None.

(** The method a field of a PathItem stands for. *)
Definition slotMethod (s : slot) : string :=
  match s with
  | SGet => "GET" | SDelete => "DELETE" | SPost => "POST" | SPut => "PUT"
  | SPatch => "PATCH" | SOptions => "OPTIONS" | SHead => "HEAD" | STrace => "TRACE"
  end.

(** The name of the field in the duplicate-route message. *)
Definition slotName (s : slot) : string :=
  match s with
  | SGet => "Get" | SDelete => "Delete" | SPost => "Post" | SPut => "Put"
  | SPatch => "Patch" | SOptions => "Options" | SHead => "Head" | STrace => "Trace"
  end.

(** An API whose only content is the text after @api, and the empty
    document a run starts from. *)
Definition apiOf (text : string) : API :=
  mkAPI text EmptyString [] EmptyString false EmptyString [] [] [].

Definition doc0 : Doc := mkDoc (mkOpenAPI None).

(** The eight methods of net/http that the switch lists. *)
Definition methods : list string :=
  ["GET"; "DELETE"; "POST"; "PUT"; "PATCH"; "OPTIONS"; "HEAD"; "TRACE"].

End types.

(** ** Results of code that may panic or loop *)

Inductive outcome (A : Type) :=
| Ret (a : A)      (* the call returns [a] *)
| Panic            (* a run-time panic *)
| Timeout.         (* the fuel ran out before the call returned *)
Arguments Ret {A} a.
Arguments Panic {A}.
Arguments Timeout {A}.

(** ** Package parser: parser/api.go *)

Module parser.
Import GoStd openapi.

(** One @tag of a comment block, as the lexer hands it out. *)
Record tag := mkTag {
  name : string;
  data : string;
  file : string;
  line : Z
}.

(** The message identifiers of package locale that api.go formats. *)
Inductive msgKey :=
| ErrDuplicateTag
| ErrTagArgNotEnough
| ErrInvalidFormat
| ErrInvalidTag.

(** [locale.Sprintf(key, arg)]: the message, kept as key and argument. *)
Record message := Sprintf {
  key : msgKey;
  arg : string
}.

(** app.SyntaxError *)
Record SyntaxError := mkSyntaxError {
  File : string;
  Line : Z;
  Message : message
}.

Definition syntaxError (t : tag) (msg : message) : SyntaxError :=
  mkSyntaxError (file t) (line t) msg.

(** Modelled from the spec: the lexer of package parser is not under src/.
    It is the stream of tags still to be read; [l.tag()] hands out the next
    tag and advances, or reports eof on the empty stream. *)
Definition lexer : Type := list tag.

Definition lexer_tag (l : lexer) : option tag * lexer :=
  match l with
  | [] => (None, [])
  | t :: l' => (Some t, l')
  end.

Record api := mkApi {
  method : string;
  path : string;
  summary : string;
  description : string;
  group : string;
  tags : list string;
  version : string;
  deprecated : bool;
  params : list Parameter_;        (* a nil slice is the empty list *)
  request : option RequestBody;
  responses : gmap string Response
}.

(** [&api{}] *)
Definition api0 : api :=
  mkApi EmptyString EmptyString EmptyString EmptyString EmptyString []
        EmptyString false [] None ∅.

Definition set_route (m p s : string) (o : api) : api :=
  mkApi m p s (description o) (group o) (tags o) (version o) (deprecated o)
        (params o) (request o) (responses o).
Definition set_group (g : string) (o : api) : api :=
  mkApi (method o) (path o) (summary o) (description o) g (tags o) (version o)
        (deprecated o) (params o) (request o) (responses o).
Definition set_tags (ts : list string) (o : api) : api :=
  mkApi (method o) (path o) (summary o) (description o) (group o) ts (version o)
        (deprecated o) (params o) (request o) (responses o).
Definition set_version (v : string) (o : api) : api :=
  mkApi (method o) (path o) (summary o) (description o) (group o) (tags o) v
        (deprecated o) (params o) (request o) (responses o).
Definition set_deprecated (d : bool) (o : api) : api :=
  mkApi (method o) (path o) (summary o) (description o) (group o) (tags o)
        (version o) d (params o) (request o) (responses o).
Definition set_params (ps : list Parameter_) (o : api) : api :=
  mkApi (method o) (path o) (summary o) (description o) (group o) (tags o)
        (version o) (deprecated o) ps (request o) (responses o).
Definition set_request (r : option RequestBody) (o : api) : api :=
  mkApi (method o) (path o) (summary o) (description o) (group o) (tags o)
        (version o) (deprecated o) (params o) r (responses o).

(** The inner [for] of the @apitags case.  [tagdata] is [tag.data], [data]
    the local slice, [acc] is [obj.tags]; [start] is the constant 0.
    [index] is looked up in [tag.data] on every turn.  Re-slicing
    [data[start:index]] past the length is a panic here (Go allows it up to
    the capacity of the slice, which the embedding takes to be its
    length). *)
Fixpoint tagsLoop (fuel : nat) (tagdata data : string) (acc : list string)
  : outcome (list string) :=
  match fuel with
  | O => Timeout
  | S fuel' =>
      let index := IndexByte tagdata ","%char in
      if index <=? 0 then Ret (acc ++ [data])
      else if len data <? index then Panic
      else tagsLoop fuel' tagdata (drop (Z.to_nat (index + 1)) tagdata)
                    (acc ++ [take (Z.to_nat index) data])
  end.

Section Parser.

(** The two helpers api.go calls that are not under src/: [split] of
    package parser and [version.SemVerValid] of github.com/issue9/version. *)
Variable split : string -> nat -> list string.
Variable SemVerValid : string -> bool.

(** The body of the switch of [api.parseAPI] for one tag: the object after
    it and the error returned, if any. *)
Definition apiTag (fuel : nat) (obj : api) (t : tag)
  : outcome (api * option SyntaxError) :=
  let n := ToLower (name t) in
  if String.eqb n "@apigroup" then
    if negb (String.eqb (group obj) "") then
      Ret (obj, Some (syntaxError t (Sprintf ErrDuplicateTag "@apiGroup")))
    else Ret (set_group (data t) obj, None)
  else if String.eqb n "@apitags" then
    if (0 <? Z.of_nat (length (tags obj))) then
      Ret (obj, Some (syntaxError t (Sprintf ErrDuplicateTag "@apiTags")))
    else
      match tagsLoop fuel (data t) (data t) (tags obj) with
      | Ret ts => Ret (set_tags ts obj, None)
      | Panic => Panic
      | Timeout => Timeout
      end
  else if String.eqb n "@apiversion" then
    if negb (String.eqb (version obj) "") then
      Ret (obj, Some (syntaxError t (Sprintf ErrDuplicateTag "@apiVersion")))
    else
      let obj1 := set_version (data t) obj in
      if negb (SemVerValid (version obj1)) then
        Ret (obj1, Some (syntaxError t (Sprintf ErrInvalidFormat "@apiVersion")))
      else Ret (obj1, None)
  else if String.eqb n "@apideprecated" then
    Ret (set_deprecated true obj, None)
  else if String.eqb n "@apiquery" then
    match split (data t) 4 with
    | [p0; p1; p2; p3] =>
        Ret (set_params (params obj ++
               [mkParameter p0 ParameterINQuery p3 false true
                            (Some (mkSchema p1 p2))]) obj, None)
    | _ => Ret (obj, Some (syntaxError t (Sprintf ErrTagArgNotEnough "@apiQuery")))
    end
  else if String.eqb n "@apiparam" then
    match split (data t) 4 with
    | [p0; p1; p2; p3] =>
        Ret (set_params (params obj ++
               [mkParameter p0 ParameterINPath p3 true false
                            (Some (mkSchema p1 p2))]) obj, None)
    | _ => Ret (obj, Some (syntaxError t (Sprintf ErrTagArgNotEnough "@apiParam")))
    end
  else
    (* default: nothing is done with the tag *)
    Ret (obj, None).

(** (obj *api).parseAPI(l): the object and the lexer after the call, and
    the error returned.  The recursion follows [l.tag()] until eof. *)
Fixpoint api_parseAPI (fuel : nat) (obj : api) (l : lexer)
  : outcome (api * lexer * option SyntaxError) :=
  match l with
  | [] => Ret (obj, [], None)
  | t :: l' =>
      match apiTag fuel obj t with
      | Ret (obj', Some e) => Ret (obj', l', Some e)
      | Ret (obj', None) => api_parseAPI fuel obj' l'
      | Panic => Panic
      | Timeout => Timeout
      end
  end.

(** The [for] of [parseRequest]: the three cases of its switch are empty,
    so every tag up to eof is read and dropped. *)
Fixpoint requestLoop (l : lexer) : lexer :=
  match l with
  | [] => []
  | t :: l' =>
      let n := ToLower (name t) in
      if String.eqb n "@apiheader" then requestLoop l'
      else if String.eqb n "@apiparam" then requestLoop l'
      else requestLoop l'
  end.

(** (obj *api).parseRequest(l, mimetype, typ) *)
Definition parseRequest (obj : api) (l : lexer) (mimetype typ : string)
  : api * lexer * option SyntaxError :=
  let obj1 :=
    set_request
      (Some (mkRequestBody
               {[ mimetype := mkMediaType (Some (mkSchema typ EmptyString)) ]}))
      obj in
  (obj1, requestLoop l, None).

(** The [for] of (p *parser).parseAPI, one turn per unit of fuel. *)
Fixpoint parserLoop (fuel : nat) (obj : api) (l : lexer)
  : outcome (api * lexer * option SyntaxError) :=
  match fuel with
  | O => Timeout
  | S fuel' =>
      match l with
      | [] => Ret (obj, [], None)
      | t :: l1 =>
          let n := ToLower (name t) in
          if String.eqb n "@api" then
            if negb (String.eqb (method obj) "") || negb (String.eqb (path obj) "")
               || negb (String.eqb (summary obj) "") then
              Ret (obj, l1, Some (syntaxError t (Sprintf ErrDuplicateTag "@api")))
            else
              match split (data t) 3 with
              | [d0; d1; d2] =>
                  let obj1 := set_route (ToUpper d0) d1 d2 obj in
                  match api_parseAPI fuel obj1 l1 with
                  | Ret (obj2, l2, Some e) => Ret (obj2, l2, Some e)
                  | Ret (obj2, l2, None) => parserLoop fuel' obj2 l2
                  | Panic => Panic
                  | Timeout => Timeout
                  end
              | _ =>
                  Ret (obj, l1,
                       Some (syntaxError t (Sprintf ErrTagArgNotEnough "@api")))
              end
          else if String.eqb n "@apirequest" then
            match split (data t) 2 with
            | [d0; d1] =>
                match parseRequest obj l1 d0 d1 with
                | (obj2, l2, Some e) => Ret (obj2, l2, Some e)
                | (obj2, l2, None) => parserLoop fuel' obj2 l2
                end
            | _ =>
                Ret (obj, l1,
                     Some (syntaxError t (Sprintf ErrInvalidFormat "@apiRequest")))
            end
          else if String.eqb n "@apiresponse" then
            parserLoop fuel' obj l1
          else
            Ret (obj, l1, Some (syntaxError t (Sprintf ErrInvalidTag (name t))))
      end
  end.

(** (p *parser).parseAPI(l), run on a fresh [&api{}]. *)
Definition parser_parseAPI (fuel : nat) (l : lexer)
  : outcome (api * lexer * option SyntaxError) :=
  parserLoop fuel api0 l.

(** The version of an object is empty or a semantic version. *)
Definition versionOk (obj : api) : Prop :=
  version obj = "" \/ SemVerValid (version obj) = true.

(** What the Go functions hand back to their caller: the error only. *)
Definition returned_error (r : outcome (api * lexer * option SyntaxError))
  : outcome (option SyntaxError) :=
  match r with
  | Ret (_, _, e) => Ret e
  | Panic => Panic
  | Timeout => Timeout
  end.

(** No @apitags tag of [l] has a comma past its first byte: the inner loop
    of each of them returns. *)
Definition tagsReturn (l : lexer) : Prop :=
  Forall (fun t => ToLower (name t) = "@apitags" -> IndexByte (data t) "," <= 0) l.

End Parser.



(** A tag as the lexer would hand it out for line [n] of x.go. *)
Definition tagAt (n : Z) (nm d : string) : tag := mkTag nm d "x.go" n.

End parser.

(** ** Package build: Input.parseFile *)

Module build.
Import GoStd.

(** Modelled from the spec: core.Position and core.Range are not under
    src/; a position is (line, column, byte offset). *)
Record Position := mkPosition {
  Line : Z;
  Column : Z;
  Offset : Z
}.

Record Range := mkRange {
  Start : Position;
  End_ : Position
}.

(** spec.Block, the value sent on the [blocks] channel. *)
Record Block := mkBlock {
  File : string;
  Range_ : Range;
  Data : string;
  Raw : string
}.

Inductive localeKey := ErrNotFoundEndFlag.

(** The two constructors of diagnostics that parseFile uses:
    core.WithError(file, field, line, err) and
    core.NewLocaleError(file, field, line, key). *)
Inductive SyntaxError :=
| WithError (file field : string) (line : Z) (err : string)
| NewLocaleError (file field : string) (line : Z) (key : localeKey).

(** What one call of parseFile hands to the outside, in order:
    [h.Error(core.Erro, e)] and [blocks <- b]. *)
Inductive Event :=
| EvError (e : SyntaxError)
| EvBlock (b : Block).

(** The operations of lang.Lexer and lang.Blocker that parseFile calls.
    A [Blocker] value is a blocker whose BeginFunc has matched. *)
Class LexerAPI (Lexer Blocker : Type) := {
  NewLexer : string -> list Blocker -> Lexer + string;
  AtEOF : Lexer -> bool;
  Block_ : Lexer -> option (Blocker * Position) * Lexer;
  Position_ : Lexer -> Position;
  EndFunc : Blocker -> Lexer -> string * string * bool * Lexer
}.

Section ParseFile.
Context {Lexer Blocker : Type} `{LexerAPI Lexer Blocker}.

(** uri.ReadAll(encoding): the bytes or the error. *)
Variable ReadAll : string -> string -> string + string.

Record Input := mkInput {
  blocks : list Blocker;
  encoding : string
}.

(** The [for] of parseFile, one turn per unit of fuel: the events emitted
    and whether the function has returned. [block] and [pos] are the two
    local variables. *)
Fixpoint parseLoop (fuel : nat) (uri : string) (l : Lexer)
    (block : option Blocker) (pos : Position) : list Event * bool :=
  match fuel with
  | O => ([], false)
  | S fuel' =>
      if AtEOF l then ([], true)
      else
        let '(found, l1) :=
          match block with
          | None => Block_ l
          | Some b => (Some (b, pos), l)
          end in
        match found with
        | None => ([], true)
        | Some (b, pos1) =>
            let '(raw, data, ok, l2) := EndFunc b l1 in
            if negb ok then
              ([EvError (NewLocaleError uri "" (Line pos1) ErrNotFoundEndFlag)],
               true)
            else if len raw =? 0 then parseLoop fuel' uri l2 None pos1
            else
              let '(evs, fin) := parseLoop fuel' uri l2 None pos1 in
              (EvBlock (mkBlock uri (mkRange pos1 (Position_ l2)) data raw) :: evs,
               fin)
        end
  end.

(** (o *Input).parseFile(blocks, h, uri) *)
Definition parseFile (fuel : nat) (o : Input) (uri : string)
  : list Event * bool :=
  match ReadAll uri (encoding o) with
  | inr err => ([EvError (WithError uri "" 0 err)], true)
  | inl data =>
      match NewLexer data (blocks o) with
      | inr err => ([EvError (WithError uri "" 0 err)], true)
      | inl l => parseLoop fuel uri l None (mkPosition 0 0 0)
      end
  end.

(** One turn of the loop that finds the end of its block: from [l] the
    blocker found at [pos] ends, leaving the lexer at [l'], with the block
    it sends, if any. *)
Definition turn (uri : string) (l : Lexer)
  : option (option Block * Lexer) :=
  if AtEOF l then None
  else
    match Block_ l with
    | (None, _) => None
    | (Some (b, pos1), l1) =>
        let '(raw, data, ok, l2) := EndFunc b l1 in
        if negb ok then None
        else if len raw =? 0 then Some (None, l2)
        else Some (Some (mkBlock uri (mkRange pos1 (Position_ l2)) data raw), l2)
    end.

(** From [l] the next block found opens at [pos] and its end is not found. *)
Definition unterminated (l : Lexer) (pos : Position) : Prop :=
  AtEOF l = false /\
  exists b l1 raw data l2,
    Block_ l = (Some (b, pos), l1) /\ EndFunc b l1 = (raw, data, false, l2).

(** [scan uri l bs l']: from [l], some turns that all find the end of their
    block send the blocks [bs] and leave the lexer at [l']. *)
Inductive scan (uri : string) : Lexer -> list Block -> Lexer -> Prop :=
| scan_here l : scan uri l [] l
| scan_skip l l1 bs l' :
    turn uri l = Some (None, l1) -> scan uri l1 bs l' -> scan uri l bs l'
| scan_send l b l1 bs l' :
    turn uri l = Some (Some b, l1) -> scan uri l1 bs l' ->
    scan uri l (b :: bs) l'.

End ParseFile.

End build.

(** ** Concrete stand-ins for the code that is not under src/ *)

Module model.
Import GoStd.

Definition is_space (c : ascii) : bool :=
  let n := nat_of_ascii c in
  ((n =? 32) || ((9 <=? n) && (n <=? 13)))%nat.

Definition is_digit (c : ascii) : bool :=
  let n := nat_of_ascii c in ((48 <=? n) && (n <=? 57))%nat.

Fixpoint skip_space (s : string) : string :=
  match s with
  | EmptyString => EmptyString
  | String c r => if is_space c then skip_space r else s
  end.

(** The bytes before the first white space, and the rest from it on. *)
Fixpoint until_space (s : string) : string * string :=
  match s with
  | EmptyString => (EmptyString, EmptyString)
  | String c r =>
      if is_space c then (EmptyString, s)
      else let '(f, rest) := until_space r in (String c f, rest)
  end.

(** Modelled from the spec: [split] of package parser is not under src/.
    "split(data, n) splits on runs of whitespace into at most n fields; the
    last field captures the remainder verbatim." *)
Fixpoint split (s : string) (n : nat) : list string :=
  match n with
  | O => []
  | S O => [s]
  | S n' =>
      let '(f, rest) := until_space s in
      match rest with
      | EmptyString => [f]
      | _ => f :: split (skip_space rest) n'
      end
  end.

(** The longest prefix of digits, and the rest. *)
Fixpoint span_digits (s : string) : string * string :=
  match s with
  | EmptyString => (EmptyString, EmptyString)
  | String c r =>
      if is_digit c then let '(d, rest) := span_digits r in (String c d, rest)
      else (EmptyString, s)
  end.

Definition nonempty (s : string) : bool := negb (String.eqb s "").

(** Modelled from the spec: version.SemVerValid belongs to the package
    github.com/issue9/version, which is not under src/.  "@apiVersion value
    must match X.Y.Z[-pre][+build]". *)
Definition SemVerValid (s : string) : bool :=
  let '(x, r1) := span_digits s in
  match r1 with
  | String "."%char r1' =>
      let '(y, r2) := span_digits r1' in
      match r2 with
      | String "."%char r2' =>
          let '(z, r3) := span_digits r2' in
          nonempty x && nonempty y && nonempty z &&
          match r3 with
          | EmptyString => true
          | String c r4 =>
              (Ascii.eqb c "-" || Ascii.eqb c "+") && nonempty r4
          end
      | _ => false
      end
  | _ => false
  end.

(** Modelled from the spec: the Lexer and the Blockers of package lang are
    not under src/ (section 4.1 of the specification).  State (data, pos);
    two kinds of blocker: a string literal, which yields no block, and a
    block comment, whose raw text is the comment with its markers and whose
    data is the text inside stripped line by line. *)
Record Lexer := mkLexer {
  ldata : string;
  lblocks : list (string * string * bool);
  lpos : nat
}.

(** A blocker: opening marker, closing marker, is it a comment. *)
Definition Blocker : Type := string * string * bool.

Definition rest (l : Lexer) : string := drop (lpos l) (ldata l).

Definition AtEOF (l : Lexer) : bool := (String.length (ldata l) <=? lpos l)%nat.

Definition advance (n : nat) (l : Lexer) : Lexer :=
  mkLexer (ldata l) (lblocks l) (lpos l + n).

(** match(literal) *)
Definition match_ (l : Lexer) (w : string) : bool * Lexer :=
  if String.prefix w (rest l) then (true, advance (String.length w) l)
  else (false, l).

Definition is_nl (c : ascii) : bool := Ascii.eqb c "010".

Fixpoint count_nl (s : string) : Z :=
  match s with
  | EmptyString => 0
  | String c r => (if is_nl c then 1 else 0) + count_nl r
  end.

(** Bytes after the last newline of [s]. *)
Fixpoint last_line (s : string) : string :=
  match s with
  | EmptyString => EmptyString
  | String c r =>
      match index_byte r "010" with
      | Some _ => last_line r
      | None => if is_nl c then r else s
      end
  end.

Definition Position_ (l : Lexer) : build.Position :=
  let before := take (lpos l) (ldata l) in
  build.mkPosition (count_nl before) (len (last_line before)) (Z.of_nat (lpos l)).

(** begin(lexer) of the first blocker, in registration order, that opens
    at the current position. *)
Fixpoint begin_any (bs : list Blocker) (l : Lexer) : option (Blocker * Lexer) :=
  match bs with
  | [] => None
  | b :: bs' =>
      match match_ l b.1.1 with
      | (true, l') => Some (b, l')
      | (false, _) => begin_any bs' l
      end
  end.

(** find_next_block(): scan forward over at most [k] bytes. *)
Fixpoint blockLoop (k : nat) (l : Lexer)
  : option (Blocker * build.Position) * Lexer :=
  if AtEOF l then (None, l)
  else
    match begin_any (lblocks l) l with
    | Some (b, l') => (Some (b, Position_ l), l')
    | None =>
        match k with
        | O => (None, l)
        | S k' => blockLoop k' (advance 1 l)
        end
    end.

Definition Block_ (l : Lexer) : option (Blocker * build.Position) * Lexer :=
  blockLoop (String.length (ldata l) - lpos l) l.

(** The text before the first occurrence of [close] in [s]. *)
Fixpoint find_end (close s : string) : option string :=
  match s with
  | EmptyString => if String.prefix close EmptyString then Some EmptyString else None
  | String c r =>
      if String.prefix close s then Some EmptyString
      else String c <$> find_end close r
  end.

(** The stripping rule of a block comment for one line: leading white
    space, then one leading star, then one optional space. *)
Definition strip_line (s : string) : string :=
  let s1 := skip_space s in
  let s2 := match s1 with String "*"%char r => r | _ => s1 end in
  match s2 with String " "%char r => r | _ => s2 end.

Fixpoint lines_go (cur : string) (s : string) : list string :=
  match s with
  | EmptyString => [cur]
  | String c r =>
      if is_nl c then cur :: lines_go EmptyString r
      else lines_go (cur +:+ String c EmptyString) r
  end.

Fixpoint join_nl (ls : list string) : string :=
  match ls with
  | [] => EmptyString
  | [x] => x
  | x :: r => x +:+ String "010" (join_nl r)
  end.

Definition strip (content : string) : string :=
  join_nl (strip_line <$> lines_go EmptyString content).

(** end(lexer) *)
Definition EndFunc (b : Blocker) (l : Lexer) : string * string * bool * Lexer :=
  let '(open, close, comment) := b in
  match find_end close (rest l) with
  | None =>
      (EmptyString, EmptyString, false,
       advance (String.length (ldata l) - lpos l) l)
  | Some content =>
      let l' := advance (String.length content + String.length close) l in
      if comment then (open +:+ content +:+ close, strip content, true, l')
      else (EmptyString, EmptyString, true, l')
  end.

Definition NewLexer (data : string) (bs : list Blocker) : Lexer + string :=
  inl (mkLexer data bs 0).

#[export] Instance lexerAPI : build.LexerAPI Lexer Blocker := {|
  build.NewLexer := NewLexer;
  build.AtEOF := AtEOF;
  build.Block_ := Block_;
  build.Position_ := Position_;
  build.EndFunc := EndFunc
|}.

(** The blockers of a C-like language: string literals and block comments. *)
Definition cBlocks : list Blocker :=
  [ (String "034" EmptyString, String "034" EmptyString, false);
    ("/*", "*/", true) ].

(** uri.ReadAll over a file system given as a map from names to contents
    (already decoded). *)
Definition ReadAll (fs : gmap string string) (uri enc : string)
  : string + string :=
  match fs !! uri with
  | Some d => inl d
  | None => inr "open: no such file"
  end.

(** Three files: the unterminated comment of scenario S3, a comment with
    nothing inside, and a comment followed by an unterminated one on the
    next line. *)
Definition files : gmap string string :=
  {[ "s3.c" := "/* @api GET /y hi";
     "empty.c" := "/* */";
     "two.c" := "a /* x */ b" +:+ String "010" " /* c" ]}.

Definition cInput : build.Input (Blocker := Blocker) :=
  build.mkInput cBlocks "utf-8".

End model.

(** ** More of the Go standard library *)

Module gostrings.
Import GoStd.

(** strings.Count(s, sep) for a one-byte [sep]. *)
Fixpoint Count (s : string) (sep : ascii) : nat :=
  match s with
  | EmptyString => 0
  | String a r => ((if Ascii.eqb a sep then 1 else 0) + Count r sep)%nat
  end.

(** strings.Split(s, sep) for a one-byte [sep]: genSplit with
    n = Count(s, sep) + 1. *)
Definition Split (s : string) (sep : ascii) : list string :=
  splitLoop (Count s sep) s sep.

(** The bytes strings.TrimSpace removes on ASCII input: tab, newline,
    vertical tab, form feed, carriage return and space. *)
Definition asciiSpace (c : ascii) : bool :=
  let n := nat_of_ascii c in
  ((n =? 32) || ((9 <=? n) && (n <=? 13)))%nat.

Fixpoint trimLeft (s : string) : string :=
  match s with
  | EmptyString => EmptyString
  | String c r => if asciiSpace c then trimLeft r else s
  end.

(** [s] without its trailing white space. *)
Fixpoint trimRight (s : string) : string :=
  match s with
  | EmptyString => EmptyString
  | String c r =>
      match trimRight r with
      | EmptyString => if asciiSpace c then EmptyString else String c EmptyString
      | r' => String c r'
      end
  end.

(** strings.TrimSpace on ASCII input. *)
Definition TrimSpace (s : string) : string := trimRight (trimLeft s).

(** strings.Repeat(s, count): a negative count is a panic. *)
Fixpoint repeatN (s : string) (n : nat) : string :=
  match n with
  | O => EmptyString
  | S n' => s +:+ repeatN s n'
  end.

Definition Repeat (s : string) (count : Z) : outcome string :=
  if count <? 0 then Panic else Ret (repeatN s (Z.to_nat count)).

(** strings.Join(elems, sep) *)
Fixpoint Join (elems : list string) (sep : string) : string :=
  match elems with
  | [] => EmptyString
  | [x] => x
  | x :: r => x +:+ sep +:+ Join r sep
  end.

End gostrings.

(** ** Package cmd: the -s flag of the mock command (internal/cmd/mock.go) *)

Module mock.
Import GoStd gostrings.

(** The two errors [Set] builds with locale.Errorf. *)
Inductive error := ErrInvalidFormat | ErrInvalidValue.

(** The [for] of [Set] over the pairs: the map after the loop and the
    error returned.  A pair is stored as soon as it is read. *)
Fixpoint setPairs (srv : gmap string string) (pairs : list string)
  : gmap string string * option error :=
  match pairs with
  | [] => (srv, None)
  | pr :: rest =>
      let index := IndexByte pr "=" in
      if index <=? 0 then (srv, Some ErrInvalidValue)
      else
        let v := if index <? len pr
                 then drop (Z.to_nat (index + 1)) pr
                 else EmptyString in
        setPairs (<[TrimSpace (take (Z.to_nat index) pr) := v]> srv) rest
  end.

(** (srv servers).Set(v): the map after the call and the error. *)
Definition Set_ (srv : gmap string string) (v : string)
  : gmap string string * option error :=
  if IndexByte v "," <=? 0 then (srv, Some ErrInvalidFormat)
  else setPairs srv (Split v ",").

(** The bytes written to the buffer for one entry. *)
Definition entryText (e : string * string) : string :=
  e.1 +:+ "=" +:+ e.2 +:+ ",".

Fixpoint writeAll (order : list (string * string)) : string :=
  match order with
  | [] => EmptyString
  | e :: r => entryText e +:+ writeAll r
  end.

(** buf.Truncate(buf.Len() - 1) *)
Definition truncateLast (s : string) : string :=
  take (String.length s - 1) s.

(** (srv servers).String().  Go ranges over a map in an order of its own
    choosing: [order] is the order in which this call meets the entries. *)
Definition String_ (order : list (string * string)) : string :=
  match order with
  | [] => EmptyString
  | _ => truncateLast (writeAll order)
  end.

(** The text of one entry between two commas. *)
Definition pairText (e : string * string) : string :=
  e.1 +:+ "=" +:+ e.2.

(** What one turn of the loop of [Set] stores for a pair with an equals
    sign past its first byte: the text before the sign, trimmed, maps to
    the text after it, as it is. *)
Definition store (srv : gmap string string) (pr : string) : gmap string string :=
  <[TrimSpace (take (Z.to_nat (IndexByte pr "=")) pr)
    := drop (Z.to_nat (IndexByte pr "=" + 1)) pr]> srv.

(** An entry that can be written and read back: the key is not empty, has
    no comma, no equals sign and no white space at either end; the value
    has no comma. *)
Definition plain (e : string * string) : Prop :=
  e.1 <> EmptyString /\ index_byte e.1 "," = None /\
  index_byte e.1 "=" = None /\ TrimSpace e.1 = e.1 /\
  index_byte e.2 "," = None.

End mock.

(** ** Package token: skipping an element (findEndElement) *)

Module token.
Import GoStd.

Record StartElement := mkStart {
  SName : string;               (* Name.Value *)
  Close : bool;
  SStart : build.Position;
  SEnd : build.Position
}.

Record EndElement := mkEnd {
  EName : string;               (* Name.Value *)
  EStart : build.Position;
  EEnd : build.Position
}.

(** The tokens [p.Token()] hands out; [findEndElement] looks at the two
    kinds of element only. *)
Inductive Token :=
| TStart (e : StartElement)
| TEnd (e : EndElement)
| TOther.                       (* *CData, *String, *Instruction, *Comment *)

Inductive error :=
| NewError (start end_ : build.Position)     (* p.NewError(start, end, locale.ErrInvalidXML) *)
| ReadError (msg : string).                  (* an error of p.Token() other than io.EOF *)

(** One answer of [p.Token()]: a token or an error. *)
Inductive item :=
| Tok (t : Token)
| Fail (e : error).

(** The parser, as the answers [p.Token()] still has to give; after the
    last one it answers io.EOF. *)
Definition Parser : Type := list item.

(** The [for] of findEndElement; [level] is the local counter (a Go int,
    unbounded here). *)
Fixpoint findEndLoop (p : Parser) (start : StartElement) (level : Z)
  : option error * Parser :=
  match p with
  | [] => (Some (NewError (SStart start) (SEnd start)), [])
  | Fail e :: p' => (Some e, p')
  | Tok (TStart elem) :: p' =>
      if String.eqb (SName elem) (SName start)
      then findEndLoop p' start (level + 1)
      else findEndLoop p' start level
  | Tok (TEnd elem) :: p' =>
      if (level =? 0) && String.eqb (EName elem) (SName start) then (None, p')
      else findEndLoop p' start (level - 1)
  | Tok TOther :: p' => findEndLoop p' start level
  end.

(** findEndElement(p, start): the error returned and the parser after. *)
Definition findEndElement (p : Parser) (start : StartElement)
  : option error * Parser :=
  findEndLoop p start 0.

(** Tokens that leave the counter alone and do not end the search: no end
    element, no start element named [n], no error. *)
Definition inert (n : string) (i : item) : Prop :=
  match i with
  | Tok (TStart elem) => SName elem <> n
  | Tok (TEnd _) => False
  | Tok TOther => True
  | Fail _ => False
  end.

(** Tokens that never raise the counter: no start element named [n], no
    error. *)
Definition lowering (n : string) (i : item) : Prop :=
  match i with
  | Tok (TStart elem) => SName elem <> n
  | Tok _ => True
  | Fail _ => False
  end.

End token.

(** ** Package lang: the PHP heredoc and nowdoc blocker (php.go) *)

Module php.
Import GoStd model.

Definition phpHerodoc : Z := 1.
Definition phpNowdoc : Z := 2.

Record phpDocBlock := mkPhpDocBlock {
  token1 : string;
  token2 : string;
  doctype : Z
}.

(** newPHPDocBlock() *)
Definition newPHPDocBlock : phpDocBlock :=
  mkPhpDocBlock EmptyString EmptyString phpHerodoc.

(** Modelled from the spec: [l.line()] of the Lexer, which is not under
    src/: "bytes from pos to the next \n (not inclusive), without
    advancing". *)
Fixpoint until_nl (s : string) : string :=
  match s with
  | EmptyString => EmptyString
  | String c r => if is_nl c then EmptyString else String c (until_nl r)
  end.

Definition line (l : Lexer) : string := until_nl (rest l).

(** token[i] for i < len(token) *)
Definition byteAt (s : string) (i : nat) : option ascii := String.get i s.

Definition nl : string := String "010" EmptyString.

(** (b *phpDocBlock).BeginFunc(l): the value returned, the blocker and the
    lexer after the call.  [token[1 : len(token)-1]] with a one-byte token
    is a slice with low > high: a panic. *)
Definition BeginFunc (b : phpDocBlock) (l : Lexer)
  : outcome (bool * phpDocBlock * Lexer) :=
  match match_ l "<<<" with
  | (false, l1) => Ret (false, b, l1)
  | (true, l1) =>
      let token := line l1 in
      if len token =? 0 then
        Ret (false, b, mkLexer (ldata l1) (lblocks l1) (lpos l1 - 3))
      else
        let quoted :=
          match byteAt token 0, byteAt token (String.length token - 1) with
          | Some a, Some z => Ascii.eqb a "'" && Ascii.eqb z "'"
          | _, _ => false
          end in
        if quoted then
          if (String.length token - 1 <? 1)%nat then Panic
          else
            let token' := take (String.length token - 2) (drop 1 token) in
            Ret (true,
                 mkPhpDocBlock (nl +:+ token' +:+ nl)
                               (nl +:+ token' +:+ ";" +:+ nl) phpNowdoc,
                 l1)
        else
          Ret (true,
               mkPhpDocBlock (nl +:+ token +:+ nl)
                             (nl +:+ token +:+ ";" +:+ nl) (doctype b),
               l1)
  end.

(** The [for] of EndFunc; [k] bounds the bytes still to be passed. *)
Fixpoint endLoop (k : nat) (b : phpDocBlock) (l : Lexer) : bool * Lexer :=
  if AtEOF l then (false, l)
  else
    match match_ l (token1 b) with
    | (true, l1) => (true, l1)
    | (false, _) =>
        match match_ l (token2 b) with
        | (true, l2) => (true, l2)
        | (false, _) =>
            match k with
            | O => (false, l)
            | S k' => endLoop k' b (advance 1 l)
            end
        end
    end.

(** (b *phpDocBlock).EndFunc(l): the slice returned is always nil; the
    result is the flag and the lexer after the call. *)
Definition EndFunc (b : phpDocBlock) (l : Lexer) : bool * Lexer :=
  endLoop (String.length (ldata l) - lpos l) b l.

(** One of the two terminators of [b] starts at offset [i] of the data. *)
Definition endsAt (b : phpDocBlock) (data : string) (i : nat) : bool :=
  String.prefix (token1 b) (drop i data) || String.prefix (token2 b) (drop i data).

(** The length of the terminator found at offset [i]: token1 first. *)
Definition endLen (b : phpDocBlock) (data : string) (i : nat) : nat :=
  if String.prefix (token1 b) (drop i data) then String.length (token1 b)
  else String.length (token2 b).

End php.

(** ** Package build: Input.Sanitize (php.go, second part) *)

Module sanitize.
Import GoStd.

Record Language (Blocker : Type) := mkLanguage {
  LName : string;
  LExts : list string;
  LBlocks : list Blocker
}.
Arguments mkLanguage {Blocker} _ _ _.
Arguments LName {Blocker} _.
Arguments LExts {Blocker} _.
Arguments LBlocks {Blocker} _.

(** The Input structure with all its fields. *)
Record Input (Blocker : Type) := mkInput {
  Lang : string;
  Dir : string;
  Exts : list string;
  Recursive : bool;
  Encoding : string;
  blocks : list Blocker;
  paths : list string;
  encoding : option string        (* nil, or the encoding found *)
}.
Arguments mkInput {Blocker} _ _ _ _ _ _ _ _.
Arguments Lang {Blocker} _.
Arguments Dir {Blocker} _.
Arguments Exts {Blocker} _.
Arguments Recursive {Blocker} _.
Arguments Encoding {Blocker} _.
Arguments blocks {Blocker} _.
Arguments paths {Blocker} _.
Arguments encoding {Blocker} _.

Inductive localeKey :=
| ErrRequired | ErrDirNotExists | ErrInvalidValue | ErrDirIsEmpty.

(** core.NewLocaleError("", field, 0, key) and core.WithError("", field, 0,
    err): file and line are constant in Sanitize. *)
Inductive error :=
| NewLocaleError (field : string) (key : localeKey)
| WithError (field : string) (err : string).

(** The loop over [o.Exts]: empty entries are skipped, a dot is put before
    the entries that do not begin with one. *)
Fixpoint normExts (exts : list string) : list string :=
  match exts with
  | [] => []
  | ext :: r =>
      match ext with
      | EmptyString => normExts r
      | String c _ =>
          (if Ascii.eqb c "." then ext else String "." ext) :: normExts r
      end
  end.

Section Sanitize.
Context {Blocker : Type}.

(** What Sanitize asks of the outside: utils.FileExists, lang.Get,
    recursivePath (a walk of the file system) and ianaindex.IANA.Encoding. *)
Variable FileExists : string -> bool.
Variable langGet : string -> option (Language Blocker).
Variable recursivePath : Input Blocker -> list string + string.
Variable ianaEncoding : string -> string + string.

(** (o *Input).Sanitize(): the structure after the call ([None] for a nil
    receiver) and the error returned. *)
Definition Sanitize (o : option (Input Blocker))
  : option (Input Blocker) * option error :=
  match o with
  | None => (None, Some (NewLocaleError "" ErrRequired))
  | Some o =>
      if len (Dir o) =? 0 then (Some o, Some (NewLocaleError "dir" ErrRequired))
      else if negb (FileExists (Dir o)) then
        (Some o, Some (NewLocaleError "dir" ErrDirNotExists))
      else if len (Lang o) =? 0 then
        (Some o, Some (NewLocaleError "lang" ErrRequired))
      else
        match langGet (Lang o) with
        | None => (Some o, Some (NewLocaleError "lang" ErrInvalidValue))
        | Some language =>
            let o1 := mkInput (Lang o) (Dir o) (Exts o) (Recursive o)
                        (Encoding o) (LBlocks language) (paths o) (encoding o) in
            let exts :=
              if 0 <? Z.of_nat (length (Exts o1)) then normExts (Exts o1)
              else LExts language in
            let o2 := mkInput (Lang o1) (Dir o1) exts (Recursive o1)
                        (Encoding o1) (blocks o1) (paths o1) (encoding o1) in
            match recursivePath o2 with
            | inr err => (Some o2, Some (WithError "dir" err))
            | inl ps =>
                if Z.of_nat (length ps) =? 0 then
                  (Some o2, Some (NewLocaleError "dir" ErrDirIsEmpty))
                else
                  let o3 := mkInput (Lang o2) (Dir o2) (Exts o2) (Recursive o2)
                              (Encoding o2) (blocks o2) ps (encoding o2) in
                  if negb (String.eqb (Encoding o3) "") then
                    match ianaEncoding (Encoding o3) with
                    | inr err =>
                        (* o.encoding, err = ...: the first result is
                           stored with the error *)
                        (Some (mkInput (Lang o3) (Dir o3) (Exts o3)
                                 (Recursive o3) (Encoding o3) (blocks o3)
                                 (paths o3) None),
                         Some (WithError "encoding" err))
                    | inl enc =>
                        (Some (mkInput (Lang o3) (Dir o3) (Exts o3)
                                 (Recursive o3) (Encoding o3) (blocks o3)
                                 (paths o3) (Some enc)), None)
                    end
                  else (Some o3, None)
            end
        end
  end.

End Sanitize.

(** The first byte of [s] is a dot. *)
Definition dotted (s : string) : Prop :=
  match s with
  | String c _ => c = "."%char
  | EmptyString => False
  end.

End sanitize.

(** ** Command apidoc: the table of languages (cmd/apidoc/main.go) *)

Module apidocmain.
Import GoStd gostrings.

(** lang.Language, the fields printLanguages reads. *)
Record Language := mkLanguage {
  Name : string;
  DisplayName : string;
  Exts : list string
}.

(** The first loop: the longest display name and the longest name. *)
Fixpoint maxima (langs : list Language) (maxDisplay maxName : Z) : Z * Z :=
  match langs with
  | [] => (maxDisplay, maxName)
  | l :: r =>
      let maxDisplay' :=
        if len (DisplayName l) >? maxDisplay then len (DisplayName l)
        else maxDisplay in
      let maxName' :=
        if len (Name l) >? maxName then len (Name l) else maxName in
      maxima r maxDisplay' maxName'
  end.

Section PrintLanguages.

(** colors.Fprintln on the operands of pLine, for the line number [k] of
    the call (from 0): whether the write succeeds, that is err == nil. *)
Variable Fprintln : nat -> list string -> bool.

(** pLine(out, color, v...): a failed write panics. *)
Definition pLine (k : nat) (v : list string) : outcome unit :=
  if Fprintln k v then Ret tt else Panic.

(** The second loop: one line per language, as the operands handed to
    pLine after the output and the colour.  The result is the lines
    written, in order, and how the loop ends. *)
Fixpoint rows (k : nat) (langs : list Language) (maxDisplay maxName : Z)
  : list (list string) * outcome unit :=
  match langs with
  | [] => ([], Ret tt)
  | l :: r =>
      match Repeat " " (maxDisplay - len (DisplayName l)) with
      | Ret d =>
          match Repeat " " (maxName - len (Name l)) with
          | Ret n =>
              let v := [Name l; n; DisplayName l; d; Join (Exts l) ", "] in
              match pLine k v with
              | Ret _ =>
                  let '(ls, st) := rows (S k) r maxDisplay maxName in
                  (v :: ls, st)
              | Panic => ([], Panic)
              | Timeout => ([], Timeout)
              end
          | Panic => ([], Panic)
          | Timeout => ([], Timeout)
          end
      | Panic => ([], Panic)
      | Timeout => ([], Timeout)
      end
  end.

(** printLanguages(), on the list lang.Langs() returns. *)
Definition printLanguages (langs : list Language)
  : list (list string) * outcome unit :=
  let '(maxDisplay, maxName) := maxima langs 0 0 in
  rows 0 langs (maxDisplay + 3) (maxName + 3).

End PrintLanguages.

(** A line whose name column (name and padding) is [wn] bytes wide and
    whose display column is [wd] bytes wide, each padding being blank. *)
Definition aligned (wn wd : Z) (row : list string) : Prop :=
  match row with
  | [name; n; display; d; exts] =>
      len name + len n = wn /\ len display + len d = wd /\
      3 <= len n /\ 3 <= len d /\
      n = repeatN " " (String.length n) /\ d = repeatN " " (String.length d)
  | _ => False
  end.

End apidocmain.

(** ** Package build: recursivePath over filepath.Walk (php.go, second part) *)

Module walk.
Import GoStd.

(** The suffix of [s] that begins at its last dot or slash, if any. *)
Fixpoint lastMark (s : string) : option string :=
  match s with
  | EmptyString => None
  | String c r =>
      match lastMark r with
      | Some x => Some x
      | None => if Ascii.eqb c "." || Ascii.eqb c "/" then Some s else None
      end
  end.

(** filepath.Ext(path), with the slash as path separator: the suffix from
    the last dot of the last element of the path, empty without one. *)
Definition Ext (path : string) : string :=
  match lastMark path with
  | Some (String c r) => if Ascii.eqb c "." then String c r else EmptyString
  | _ => EmptyString
  end.

(** A file tree as filepath.Walk meets it.  Each entry carries the path
    Walk hands to the callback; the entries of a directory are in the order
    Walk reads them. [Broken] is an entry whose lstat fails, [readErr] the
    error of reading the names of a directory. *)
#[warnings="-register-all"]
Inductive node :=
| File (path : string)
| Broken (path : string) (err : string)
| Folder (path : string) (readErr : option string) (children : list node).

Definition descends (n : node) : bool :=
  match n with File _ => false | _ => true end.

(** The paths of a tree: every path Walk may hand to the callback, in the
    order of the walk. *)
Fixpoint allPaths (n : node) : list string :=
  match n with
  | File p => [p]
  | Broken p _ => [p]
  | Folder p _ children => p :: flat_map allPaths children
  end.

(** What a WalkFunc returns. *)
Inductive res := Nil | SkipDir | Err (e : string).

Section RecursivePath.
(** core.FileURI, which is not under src/. *)
Variable FileURI : string -> string + string.

(** The Input fields recursivePath reads. *)
Variable Dir : string.
Variable Exts : list string.
Variable Recursive : bool.

(** extIsEnabled *)
Fixpoint extIsEnabled (exts : list string) (ext : string) : bool :=
  match exts with
  | [] => false
  | v :: r => if String.eqb ext v then true else extIsEnabled r ext
  end.

(** The callback [walk] of recursivePath; [fi] is [Some true] for a
    directory, [None] when Walk has no FileInfo; [uris] is the captured
    slice. *)
Definition walkFn (path : string) (fi : option bool) (err : option string)
    (uris : list string) : list string * res :=
  match err with
  | Some e => (uris, Err e)
  | None =>
      if default false fi && negb Recursive && negb (String.eqb path Dir)
      then (uris, SkipDir)
      else if extIsEnabled Exts (Ext path) then
        match FileURI path with
        | inr e => (uris, Err e)
        | inl uri => (uris ++ [uri], Nil)
        end
      else (uris, Nil)
  end.

(** filepath.walk *)
Fixpoint walk (n : node) (uris : list string) : list string * res :=
  match n with
  | File p => walkFn p (Some false) None uris
  | Broken p e => walkFn p None (Some e) uris
  | Folder p rerr children =>
      let '(uris1, err1) := walkFn p (Some true) rerr uris in
      match rerr, err1 with
      | None, Nil =>
          (fix each (cs : list node) (uris : list string) : list string * res :=
             match cs with
             | [] => (uris, Nil)
             | c :: cs' =>
                 let '(uris2, err) := walk c uris in
                 match err with
                 | Nil => each cs' uris2
                 | SkipDir => if descends c then each cs' uris2 else (uris2, SkipDir)
                 | Err e => (uris2, Err e)
                 end
             end) children uris1
      | _, _ => (uris1, err1)
      end
  end.

(** recursivePath(o), on the tree found at o.Dir. *)
Definition recursivePath (tree : node) : list string + string :=
  match walk tree [] with
  | (uris, Err e) => inr e
  | (uris, _) => inl uris
  end.

(** The loop over the entries of a directory, as a function of its own. *)
Fixpoint each (cs : list node) (uris : list string) : list string * res :=
  match cs with
  | [] => (uris, Nil)
  | c :: cs' =>
      let '(uris2, err) := walk c uris in
      match err with
      | Nil => each cs' uris2
      | SkipDir => if descends c then each cs' uris2 else (uris2, SkipDir)
      | Err e => (uris2, Err e)
      end
  end.

(** Listing the paths of [ps] that have an enabled extension, in order, up
    to the first that FileURI refuses. *)
Fixpoint collect (ps : list string) (uris : list string) : list string * res :=
  match ps with
  | [] => (uris, Nil)
  | p :: r =>
      if extIsEnabled Exts (Ext p) then
        match FileURI p with
        | inr e => (uris, Err e)
        | inl uri => collect r (uris ++ [uri])
        end
      else collect r uris
  end.

(** [uris] are the URIs of the paths [ps], one by one, and each of these
    paths has an enabled extension. *)
Definition listed (ps uris : list string) : Prop :=
  Forall2 (fun p uri => FileURI p = inl uri /\ Ext p ∈ Exts) ps uris.

End RecursivePath.

(** The paths of the plain files among the entries. *)
Fixpoint filePaths (cs : list node) : list string :=
  match cs with
  | [] => []
  | File p :: r => p :: filePaths r
  | _ :: r => filePaths r
  end.

Definition pathOf (n : node) : string :=
  match n with File p => p | Broken p _ => p | Folder p _ _ => p end.

Definition readable (n : node) : Prop :=
  match n with
  | Broken _ _ => False
  | Folder _ (Some _) _ => False
  | _ => True
  end.

End walk.

(** ** Notions used to state the facts below *)

Module notions.
Import GoStd openapi types.

(** Every byte of [s] is below 128.  On such input strings.ToUpper,
    bytes.ToLower and strings.TrimSpace do what [ToUpper], [ToLower] and
    [TrimSpace] do here; the facts that depend on one of the three say so
    with this test. *)
Fixpoint isASCII (s : string) : bool :=
  match s with
  | EmptyString => true
  | String c r => (nat_of_ascii c <? 128)%nat && isASCII r
  end.

(** The tags whose names are ASCII. *)
Definition asciiNames (l : list parser.tag) : Prop :=
  Forall (fun t => isASCII (parser.name t) = true) l.

Definition upperLetter (c : ascii) : bool :=
  let n := nat_of_ascii c in ((65 <=? n) && (n <=? 90))%nat.

(** [d] spells [M] up to the case of the letters that are capitals in [M]:
    byte for byte, [d] has the byte of [M] or, for a capital A-Z, its small
    letter. *)
Fixpoint spells (M d : string) : bool :=
  match M, d with
  | EmptyString, EmptyString => true
  | String C M', String c d' =>
      (Ascii.eqb c C
       || (upperLetter C && (nat_of_ascii c =? nat_of_ascii C + 32)%nat))
      && spells M' d'
  | _, _ => false
  end.

(** Every byte of [s] is a capital A-Z. *)
Fixpoint allUpper (s : string) : bool :=
  match s with
  | EmptyString => true
  | String c r => upperLetter c && allUpper r
  end.

(** The events of one call of parseFile in good order: blocks with a raw
    text, all of the file, then at most one diagnostic. *)
Definition orderly (uri : string) (evs : list build.Event) : Prop :=
  exists bs tail,
    evs = (build.EvBlock <$> bs) ++ tail /\
    Forall (fun b => build.Raw b <> "" /\ build.File b = uri) bs /\
    (tail = [] \/ exists e, tail = [build.EvError e]).

(** What an add with three fields and a known method does to the
    PathItem of its path. *)
Definition stepItem (api : API) (sl : slot) (it : PathItem) : PathItem :=
  match slot_get sl it with
  | Some _ => it
  | None => slot_set sl (Some (fill api Operation0)) it
  end.

(** A small world for Sanitize: one directory, one language, one file. *)
Definition fileExists (d : string) : bool := String.eqb d "src".

Definition langGet (n : string) : option (sanitize.Language model.Blocker) :=
  if String.eqb n "go" then Some (sanitize.mkLanguage "go" [".go"] model.cBlocks)
  else None.

Definition pathsOfDir (o : sanitize.Input model.Blocker) : list string + string :=
  inl ["src/a.go"].

Definition iana (name : string) : string + string :=
  if String.eqb name "utf-8" then inl "UTF-8" else inr "unknown encoding".

(** core.FileURI on a path that needs no cleaning. *)
Definition fileURI (p : string) : string + string := inl ("file://" +:+ p).

(** A PHP source with a nowdoc: the opener, one line of text, the
    terminator with its semicolon, and what follows. *)
Definition phpSource : string :=
  "<<<'EOT'" +:+ php.nl +:+ "abc" +:+ php.nl +:+ "EOT;" +:+ php.nl +:+ "$x".

(** The blocker BeginFunc leaves for that opener. *)
Definition phpEOT : php.phpDocBlock :=
  php.mkPhpDocBlock (php.nl +:+ "EOT" +:+ php.nl)
                    (php.nl +:+ "EOT" +:+ ";" +:+ php.nl) php.phpNowdoc.

(** Two servers of the mock command. *)
Definition twoServers : gmap string string :=
  {[ "api" := "http://localhost:8080"; "cdn" := "http://localhost:8081" ]}.

(** An Input as read from a configuration file. *)
Definition goInput : sanitize.Input model.Blocker :=
  sanitize.mkInput "go" "src" ["go"; ""; ".mod"] false "utf-8" [] [] None.

(** A directory with a Go file, a text file and a sub-directory. *)
Definition srcTree : walk.node :=
  walk.Folder "src" None
    [walk.File "src/a.go";
     walk.Folder "src/sub" None [walk.File "src/sub/b.go"];
     walk.File "src/c.txt"].

End notions.

(** * Facts about the embedded code *)

(** ** Strings *)

Lemma eqb_string_true (a b : string) : String.eqb a b = true <-> a = b.
Proof. apply String.eqb_eq. Qed.

Lemma eqb_string_false (a b : string) : String.eqb a b = false <-> a <> b.
Proof. apply String.eqb_neq. Qed.

(** Case analysis on the first string comparison of the goal. *)
Ltac case_eqb :=
  match goal with
  | |- context [String.eqb ?a ?b] =>
      let E := fresh "E" in
      destruct (String.eqb a b) eqn:E;
      [apply eqb_string_true in E | apply eqb_string_false in E]
  end.

(** ** The document builder *)

Section Builder.
Import GoStd openapi types.

Lemma slot_get_set s o p : slot_get s (slot_set s o p) = o.
Proof. by destruct s. Qed.

Lemma slot_get_set_ne s s' o p : s <> s' -> slot_get s' (slot_set s o p) = slot_get s' p.
Proof. by destruct s, s'. Qed.

Lemma slot_get_empty s : slot_get s PathItem0 = None.
Proof. by destruct s. Qed.

Lemma methodSlot_methods u : methodSlot u = None <-> u ∉ methods.
Proof.
  split.
  - intros Hnone Hin. unfold methods in Hin.
    rewrite !elem_of_cons, elem_of_nil in Hin.
    repeat destruct Hin as [-> | Hin]; try discriminate Hnone. done.
  - intros Hn. unfold methodSlot.
    repeat (case_eqb;
            [subst; exfalso; apply Hn;
             unfold methods; rewrite !elem_of_cons; tauto |]).
    reflexivity.
Qed.

Lemma methodSlot_sound u s : methodSlot u = Some s -> u = slotMethod s.
Proof.
  unfold methodSlot. repeat (case_eqb; [by intros [= <-]|]). done.
Qed.

(** The switch of [getOperation], by the field it selects. *)
Lemma getOperation_spec doc api m p s :
  SplitN (API_ api) " " 3 = [m; p; s] ->
  getOperation doc api =
    let paths := <[p := itemOf doc p]> (pathsOf doc) in
    match methodSlot (ToUpper m) with
    | None => (withPaths paths, Err ErrInvalidMethod)
    | Some sl =>
        match slot_get sl (itemOf doc p) with
        | Some _ => (withPaths paths, Err (ErrRouteExists (slotName sl)))
        | None =>
            (withPaths (<[p := slot_set sl (Some Operation0) (itemOf doc p)]> paths),
             Ok (p, sl))
        end
    end.
Proof.
  intros Hsplit. unfold getOperation. rewrite Hsplit.
  change (match Paths (OpenAPI_ doc) with Some m0 => m0 | None => ∅ end)
    with (pathsOf doc).
  unfold itemOf, methodSlot.
  destruct (pathsOf doc !! p) as [it|] eqn:Hp; cbn [default from_option id].
  - rewrite (insert_id (pathsOf doc) p it Hp).
    repeat (case_eqb;
            [cbn; match goal with |- context [match ?x with _ => _ end] =>
                    destruct x end; reflexivity|]).
    reflexivity.
  - repeat (case_eqb; [cbn; rewrite ?insert_insert_eq; reflexivity|]).
    reflexivity.
Qed.

Lemma slot_set_set s o o' p : slot_set s o (slot_set s o' p) = slot_set s o p.
Proof. by destruct s. Qed.

Lemma opAt_itemOf doc p sl : opAt doc p sl = slot_get sl (itemOf doc p).
Proof.
  unfold opAt, itemOf, pathsOf.
  destruct (Paths (OpenAPI_ doc)) as [m|]; cbn.
  - destruct (m !! p); cbn; [done | by rewrite slot_get_empty].
  - rewrite lookup_empty. cbn. by rewrite slot_get_empty.
Qed.

Lemma opAt_pathsOf doc p sl : opAt (withPaths (pathsOf doc)) p sl = opAt doc p sl.
Proof.
  unfold opAt, pathsOf. cbn.
  destruct (Paths (OpenAPI_ doc)); cbn; [done | by rewrite lookup_empty].
Qed.

(** Reading after the lookup-or-create step of [getOperation]. *)
Lemma opAt_created doc p0 p sl :
  opAt (withPaths (<[p0 := itemOf doc p0]> (pathsOf doc))) p sl = opAt doc p sl.
Proof.
  destruct (decide (p0 = p)) as [->|Hne].
  - unfold opAt at 1. cbn. rewrite lookup_insert_eq. cbn. by rewrite opAt_itemOf.
  - unfold opAt at 1. cbn. rewrite lookup_insert_ne by done.
    apply (opAt_pathsOf doc p sl).
Qed.

(** Reading after an operation has been put into a field. *)
Lemma opAt_installed doc p0 sl0 x p sl :
  opAt (withPaths (<[p0 := slot_set sl0 x (itemOf doc p0)]>
                     (<[p0 := itemOf doc p0]> (pathsOf doc)))) p sl =
  if decide (p0 = p /\ sl0 = sl) then x else opAt doc p sl.
Proof.
  rewrite insert_insert_eq.
  destruct (decide (p0 = p)) as [->|Hne].
  - unfold opAt at 1. cbn. rewrite lookup_insert_eq. cbn.
    destruct (decide (sl0 = sl)) as [->|Hs].
    + rewrite slot_get_set. by rewrite decide_True.
    + rewrite slot_get_set_ne by done.
      rewrite decide_False by (intros [_ Hq]; by apply Hs).
      by rewrite opAt_itemOf.
  - unfold opAt at 1. cbn. rewrite lookup_insert_ne by done.
    rewrite decide_False by (intros [Hq _]; by apply Hne).
    apply (opAt_pathsOf doc p sl).
Qed.

(** [parseAPI] on a text with its three fields, by the field selected. *)
Lemma parseAPI_spec doc api m p s :
  SplitN (API_ api) " " 3 = [m; p; s] ->
  parseAPI doc api =
    let paths := <[p := itemOf doc p]> (pathsOf doc) in
    match methodSlot (ToUpper m) with
    | None => (withPaths paths, Some ErrInvalidMethod)
    | Some sl =>
        match slot_get sl (itemOf doc p) with
        | Some _ => (withPaths paths, Some (ErrRouteExists (slotName sl)))
        | None =>
            (withPaths (<[p := slot_set sl (Some (fill api Operation0))
                                        (itemOf doc p)]> paths), None)
        end
    end.
Proof.
  intros Hsplit. unfold parseAPI. rewrite (getOperation_spec _ _ _ _ _ Hsplit).
  cbn zeta. destruct (methodSlot (ToUpper m)) as [sl|]; [|done].
  destruct (slot_get sl (itemOf doc p)); [done|].
  unfold update. cbn. rewrite lookup_insert_eq, slot_get_set, slot_set_set.
  cbn. by rewrite insert_insert_eq.
Qed.

(** [parseAPI] on a text with fewer than three fields. *)
Lemma parseAPI_short doc api :
  length (SplitN (API_ api) " " 3) <> 3%nat ->
  parseAPI doc api = (withPaths (pathsOf doc), Some ErrMissingArgs).
Proof.
  intros Hlen. unfold parseAPI, getOperation.
  destruct (SplitN (API_ api) " " 3) as [|a [|b [|c [|d r]]]]; try done.
Qed.

(** An operation of the document is never replaced or removed by a
    further add. *)
Lemma parseAPI_keeps doc api p sl o :
  opAt doc p sl = Some o -> opAt (parseAPI doc api).1 p sl = Some o.
Proof.
  intros Ho.
  destruct (decide (length (SplitN (API_ api) " " 3) = 3%nat)) as [Hlen|Hlen].
  - destruct (SplitN (API_ api) " " 3) as [|m [|p0 [|s [|d r]]]] eqn:Hsplit;
      try done.
    rewrite (parseAPI_spec _ _ _ _ _ Hsplit). cbn zeta.
    destruct (methodSlot (ToUpper m)) as [sl0|]; cbn [fst];
      [|by rewrite opAt_created].
    destruct (slot_get sl0 (itemOf doc p0)) eqn:Hget; cbn [fst];
      [by rewrite opAt_created|].
    rewrite opAt_installed. case_decide as Hd; [|done].
    destruct Hd as [-> ->]. rewrite opAt_itemOf in Ho. congruence.
  - rewrite parseAPI_short by done. cbn [fst]. by rewrite opAt_pathsOf.
Qed.

Lemma addAll_keeps apis doc p sl o :
  opAt doc p sl = Some o -> opAt (addAll doc apis) p sl = Some o.
Proof.
  revert doc. induction apis as [|a apis IH]; intros doc Ho; [done|].
  cbn. apply IH. by apply parseAPI_keeps.
Qed.

(** An add on an occupied (path, method) fails and changes nothing. *)
Lemma parseAPI_taken doc api m p s sl o :
  SplitN (API_ api) " " 3 = [m; p; s] ->
  methodSlot (ToUpper m) = Some sl ->
  opAt doc p sl = Some o ->
  parseAPI doc api = (doc, Some (ErrRouteExists (slotName sl))).
Proof.
  intros Hsplit Hm Ho. rewrite (parseAPI_spec _ _ _ _ _ Hsplit). cbn zeta.
  rewrite Hm. pose proof Ho as Ho'. rewrite opAt_itemOf in Ho'. rewrite Ho'.
  f_equal. unfold opAt in Ho. unfold itemOf, pathsOf.
  destruct doc as [[[paths|]]]; cbn in *; [|done].
  destruct (paths !! p) as [it|] eqn:Hp; [|done]. cbn.
  by rewrite insert_id.
Qed.

(** An add on a free (path, method) installs the operation. *)
Lemma parseAPI_free doc api m p s sl :
  SplitN (API_ api) " " 3 = [m; p; s] ->
  methodSlot (ToUpper m) = Some sl ->
  opAt doc p sl = None ->
  (parseAPI doc api).2 = None /\
  opAt (parseAPI doc api).1 p sl = Some (fill api Operation0).
Proof.
  intros Hsplit Hm Ho. rewrite (parseAPI_spec _ _ _ _ _ Hsplit). cbn zeta.
  rewrite Hm. rewrite opAt_itemOf in Ho. rewrite Ho. cbn [fst snd].
  split; [done|]. rewrite opAt_installed. by rewrite decide_True.
Qed.

End Builder.

Section BuilderClaims.
Import GoStd openapi types notions.

(** C1. A (path, method) pair of the document holds at most one operation:
    when the pair is free, the first add installs its operation and
    returns no error; after that, whatever else is added in between, an add
    with the same path and the same method (up to case) fails with the
    duplicate-route error, leaves the document as it is, and the operation
    installed first is still the one stored. *)
Theorem route_unique doc api1 mids api2 m1 m2 p s1 s2 sl :
  SplitN (API_ api1) " " 3 = [m1; p; s1] ->
  SplitN (API_ api2) " " 3 = [m2; p; s2] ->
  methodSlot (ToUpper m1) = Some sl ->
  methodSlot (ToUpper m2) = Some sl ->
  opAt doc p sl = None ->
  let d1 := (parseAPI doc api1).1 in
  let d2 := addAll d1 mids in
  (parseAPI doc api1).2 = None /\
  opAt d1 p sl = Some (fill api1 Operation0) /\
  parseAPI d2 api2 = (d2, Some (ErrRouteExists (slotName sl))) /\
  opAt (parseAPI d2 api2).1 p sl = Some (fill api1 Operation0).
Proof.
  intros H1 H2 Hm1 Hm2 Hfree d1 d2.
  destruct (parseAPI_free doc api1 m1 p s1 sl H1 Hm1 Hfree) as [Hnil Hinst].
  assert (Hd2 : opAt d2 p sl = Some (fill api1 Operation0))
    by (by apply addAll_keeps).
  pose proof (parseAPI_taken d2 api2 m2 p s2 sl _ H2 Hm2 Hd2) as Hdup.
  repeat split; try done. by rewrite Hdup.
Qed.

Lemma route_unique_witness :
  let d1 := (parseAPI doc0 (apiOf "GET /x one")).1 in
  let d2 := addAll d1 [apiOf "POST /x other"; apiOf "GET /y one"] in
  (parseAPI doc0 (apiOf "GET /x one")).2 = None /\
  opAt d1 "/x" SGet = Some (fill (apiOf "GET /x one") Operation0) /\
  parseAPI d2 (apiOf "get /x two") = (d2, Some (ErrRouteExists "Get")) /\
  opAt (parseAPI d2 (apiOf "get /x two")).1 "/x" SGet
    = Some (fill (apiOf "GET /x one") Operation0).
Proof.
  apply (route_unique doc0 (apiOf "GET /x one")
           [apiOf "POST /x other"; apiOf "GET /y one"] (apiOf "get /x two")
           "GET" "get" "/x" "one" "two" SGet); reflexivity.
Defined.

(** C9. When the path is not yet in the document and the method token (an
    ASCII token, on which [ToUpper] is strings.ToUpper) is none of the
    eight once in upper case, the add fails with the invalid-method error
    and the document is changed all the same: an empty PathItem is left
    under that path. *)
Theorem invalid_method_leaves_empty_item doc api m p s :
  SplitN (API_ api) " " 3 = [m; p; s] ->
  isASCII m = true ->
  ToUpper m ∉ methods ->
  itemAt doc p = None ->
  (getOperation doc api).2 = Err ErrInvalidMethod /\
  (parseAPI doc api).2 = Some ErrInvalidMethod /\
  itemAt (parseAPI doc api).1 p = Some PathItem0 /\
  (forall sl, slot_get sl PathItem0 = None) /\
  (parseAPI doc api).1 <> doc.
Proof.
  intros Hsplit _ Hm Hnone. apply methodSlot_methods in Hm.
  assert (Hitem : itemOf doc p = PathItem0).
  { unfold itemOf, pathsOf. unfold itemAt in Hnone.
    destruct (Paths (OpenAPI_ doc)); cbn; [by rewrite Hnone|].
    by rewrite lookup_empty. }
  rewrite (getOperation_spec _ _ _ _ _ Hsplit),
          (parseAPI_spec _ _ _ _ _ Hsplit).
  cbn zeta. rewrite Hm, Hitem. cbn [fst snd].
  assert (Hnow : itemAt (withPaths (<[p:=PathItem0]> (pathsOf doc))) p
                 = Some PathItem0)
    by (unfold itemAt; cbn; apply lookup_insert_eq).
  repeat split; try done.
  - apply slot_get_empty.
  - intros Heq. rewrite Heq in Hnow. congruence.
Qed.

Lemma invalid_method_leaves_empty_item_witness :
  (getOperation doc0 (apiOf "FOO /x hi")).2 = Err ErrInvalidMethod /\
  (parseAPI doc0 (apiOf "FOO /x hi")).2 = Some ErrInvalidMethod /\
  itemAt (parseAPI doc0 (apiOf "FOO /x hi")).1 "/x" = Some PathItem0 /\
  (forall sl, slot_get sl PathItem0 = None) /\
  (parseAPI doc0 (apiOf "FOO /x hi")).1 <> doc0.
Proof.
  apply (invalid_method_leaves_empty_item doc0 (apiOf "FOO /x hi") "FOO" "/x" "hi").
  - reflexivity.
  - reflexivity.
  - apply (bool_decide_unpack _). vm_compute. exact I.
  - reflexivity.
Defined.

End BuilderClaims.

(** ** The tag parser *)

(** Case analysis on the first match of the goal that is not a string
    comparison. *)
Ltac case_match_goal :=
  match goal with
  | |- context [match ?x with _ => _ end] => destruct x eqn:?
  end.

Section ParserFacts.
Import GoStd openapi parser.

Variable split : string -> nat -> list string.
Variable SemVerValid : string -> bool.

Local Abbreviation apiTag := (parser.apiTag split SemVerValid).
Local Abbreviation api_parseAPI := (parser.api_parseAPI split SemVerValid).
Local Abbreviation parserLoop := (parser.parserLoop split SemVerValid).
Local Abbreviation parser_parseAPI := (parser.parser_parseAPI split SemVerValid).

(** The inner loop of @apitags returns on its first turn when there is no
    comma past the first byte ... *)
Lemma tagsLoop_done fuel td data acc :
  IndexByte td "," <= 0 ->
  tagsLoop (S fuel) td data acc = Ret (acc ++ [data]).
Proof. intros Hi. cbn. by rewrite (proj2 (Z.leb_le _ _) Hi). Qed.

(** ... and never returns otherwise. *)
Lemma tagsLoop_never fuel td data acc r :
  0 < IndexByte td "," ->
  tagsLoop fuel td data acc <> Ret r.
Proof.
  intros Hi. revert data acc.
  induction fuel as [|fuel IH]; intros data acc; cbn; [done|].
  rewrite (proj2 (Z.leb_gt _ _) Hi).
  destruct (len data <? IndexByte td ","); [done | apply IH].
Qed.

Lemma requestLoop_nil l : requestLoop l = [].
Proof.
  induction l as [|t l IH]; cbn; [done|].
  by repeat case_match_goal.
Qed.

Lemma parseRequest_spec obj l mt typ :
  parseRequest obj l mt typ =
    (set_request
       (Some (mkRequestBody {[ mt := mkMediaType (Some (mkSchema typ EmptyString)) ]}))
       obj, [], None).
Proof. unfold parseRequest. by rewrite requestLoop_nil. Qed.

(** One tag of [api.parseAPI] returns when its @apitags loop does. *)
Lemma apiTag_returns fuel obj t :
  (ToLower (name t) = "@apitags" -> IndexByte (data t) "," <= 0) ->
  exists obj' e, apiTag (S fuel) obj t = Ret (obj', e).
Proof.
  intros Hi. unfold parser.apiTag. cbv zeta.
  case_eqb; [case_match_goal; eauto|].
  case_eqb.
  { case_match_goal; [eauto|]. rewrite tagsLoop_done by auto. eauto. }
  repeat (case_eqb || case_match_goal); eauto.
Qed.

(** No tag of [api.parseAPI] writes the route or the request. *)
Lemma apiTag_frame fuel obj t obj' e :
  apiTag fuel obj t = Ret (obj', e) ->
  method obj' = method obj /\ path obj' = path obj /\
  summary obj' = summary obj /\ request obj' = request obj.
Proof.
  unfold parser.apiTag. cbv zeta.
  repeat (case_eqb || case_match_goal); intros [= <- <-]; done.
Qed.




(** The @apiversion case when no version is stored yet. *)
Lemma apiTag_version fuel obj t :
  ToLower (name t) = "@apiversion" ->
  version obj = "" ->
  apiTag fuel obj t
  = Ret (set_version (data t) obj,
         if SemVerValid (data t) then None
         else Some (syntaxError t (Sprintf ErrInvalidFormat "@apiVersion"))).
Proof.
  intros Hn Hv. unfold parser.apiTag. cbv zeta. rewrite Hn, Hv. cbn.
  by destruct (SemVerValid (data t)).
Qed.

(** Only @apiversion writes the version. *)
Lemma apiTag_version_frame fuel obj t obj' e :
  ToLower (name t) <> "@apiversion" ->
  apiTag fuel obj t = Ret (obj', e) ->
  version obj' = version obj.
Proof.
  unfold parser.apiTag. cbv zeta.
  repeat (case_eqb || case_match_goal); intros Hn [= <- <-]; done.
Qed.

Lemma apiTag_versionOk fuel obj t obj' :
  versionOk SemVerValid obj ->
  apiTag fuel obj t = Ret (obj', None) ->
  versionOk SemVerValid obj'.
Proof.
  unfold parser.apiTag, parser.versionOk. cbv zeta.
  repeat (case_eqb || case_match_goal); intros Hv [= <-]; subst;
    cbn in *; try done.
  right. by apply negb_false_iff.
Qed.

(** *** The loop of [api.parseAPI] *)

Lemma api_parseAPI_cons fuel obj t l :
  api_parseAPI fuel obj (t :: l) =
    match apiTag fuel obj t with
    | Ret (obj', Some e) => Ret (obj', l, Some e)
    | Ret (obj', None) => api_parseAPI fuel obj' l
    | Panic => Panic
    | Timeout => Timeout
    end.
Proof. reflexivity. Qed.

(** A run without error has read the whole stream. *)
Lemma api_parseAPI_ok_nil fuel l : forall obj o l',
  api_parseAPI fuel obj l = Ret (o, l', None) -> l' = [].
Proof.
  induction l as [|t l IH]; intros obj o l'.
  - by intros [= _ <-].
  - rewrite api_parseAPI_cons.
    destruct (apiTag fuel obj t) as [[o1 [e|]]| |]; try done. apply IH.
Qed.


Lemma api_parseAPI_app fuel l1 l2 : forall obj o1 l',
  api_parseAPI fuel obj l1 = Ret (o1, l', None) ->
  api_parseAPI fuel obj (l1 ++ l2) = api_parseAPI fuel o1 l2.
Proof.
  induction l1 as [|t l1 IH]; intros obj o1 l'; cbn [app].
  - by intros [= <- _].
  - rewrite !api_parseAPI_cons.
    destruct (apiTag fuel obj t) as [[o2 [e|]]| |]; try done. apply IH.
Qed.


Lemma api_parseAPI_frame fuel l : forall obj o l' e,
  api_parseAPI fuel obj l = Ret (o, l', e) ->
  method o = method obj /\ path o = path obj /\
  summary o = summary obj /\ request o = request obj.
Proof.
  induction l as [|t l IH]; intros obj o l' e.
  - by intros [= <- _ _].
  - rewrite api_parseAPI_cons.
    destruct (apiTag fuel obj t) as [[o1 [e1|]]| |] eqn:Ht; try done.
    + intros [= <- _ _]. by eapply apiTag_frame.
    + intros Hrun. apply IH in Hrun. apply apiTag_frame in Ht.
      destruct Hrun as (-> & -> & -> & ->). done.
Qed.

Lemma api_parseAPI_versionOk fuel l : forall obj o l',
  versionOk SemVerValid obj ->
  api_parseAPI fuel obj l = Ret (o, l', None) ->
  versionOk SemVerValid o.
Proof.
  induction l as [|t l IH]; intros obj o l' Hv.
  - by intros [= <- _].
  - rewrite api_parseAPI_cons.
    destruct (apiTag fuel obj t) as [[o1 [e|]]| |] eqn:Ht; try done.
    apply IH. by eapply apiTag_versionOk.
Qed.

Lemma api_parseAPI_version_frame fuel l : forall obj o l',
  Forall (fun u => ToLower (name u) <> "@apiversion") l ->
  api_parseAPI fuel obj l = Ret (o, l', None) ->
  version o = version obj.
Proof.
  induction l as [|t l IH]; intros obj o l' Hall.
  - by intros [= <- _].
  - rewrite api_parseAPI_cons. inversion Hall as [|? ? Ht Hl]; subst.
    destruct (apiTag fuel obj t) as [[o1 [e|]]| |] eqn:Hstep; try done.
    intros Hrun. rewrite (IH _ _ _ Hl Hrun).
    by eapply apiTag_version_frame.
Qed.

(** With one unit of fuel for the @apitags loops, the run returns as soon
    as each of them does. *)
Lemma api_parseAPI_returns fuel l : forall obj,
  tagsReturn l ->
  exists o l' e, api_parseAPI (S fuel) obj l = Ret (o, l', e).
Proof.
  induction l as [|t l IH]; intros obj Hall.
  - by exists obj, [], None.
  - rewrite api_parseAPI_cons. inversion Hall as [|? ? Ht Hl]; subst.
    destruct (apiTag_returns fuel obj t Ht) as (o1 & e & ->).
    destruct e as [e|]; [by eauto | by apply IH].
Qed.

(** In the example of the specification, [tag.data] is "a, b ,c": the
    comma is at offset 1 on every turn, and the loop goes on for ever. *)
Lemma tagsLoop_spins fuel td : forall data acc,
  0 < IndexByte td "," ->
  IndexByte td "," <= len data ->
  IndexByte td "," <= len (drop (Z.to_nat (IndexByte td "," + 1)) td) ->
  tagsLoop fuel td data acc = Timeout.
Proof.
  induction fuel as [|fuel IH]; intros data acc Hpos Hlen Hnext; [done|].
  cbn [tagsLoop]. cbv zeta.
  rewrite (proj2 (Z.leb_gt _ _) Hpos), (proj2 (Z.ltb_ge _ _) Hlen).
  by apply IH.
Qed.

(** *** The loop of [parser.parseAPI] on a block that opens with @api *)

Lemma parserLoop_api fuel obj t l :
  ToLower (name t) = "@api" ->
  method obj = "" -> path obj = "" -> summary obj = "" ->
  parserLoop (S fuel) obj (t :: l) =
    match split (data t) 3 with
    | [d0; d1; d2] =>
        match api_parseAPI (S fuel) (set_route (ToUpper d0) d1 d2 obj) l with
        | Ret (obj2, l2, Some e) => Ret (obj2, l2, Some e)
        | Ret (obj2, l2, None) => parserLoop fuel obj2 l2
        | Panic => Panic
        | Timeout => Timeout
        end
    | _ => Ret (obj, l, Some (syntaxError t (Sprintf ErrTagArgNotEnough "@api")))
    end.
Proof.
  intros Hn Hm Hp Hs. cbn [parser.parserLoop]. cbv zeta.
  rewrite Hn, Hm, Hp, Hs. reflexivity.
Qed.

(** A block that opens with @api and is parsed without error: the @api
    tag had its three fields, the rest was read by [api.parseAPI] to the
    end, and there was fuel for two turns. *)
Lemma block_ok_inv fuel tapi rest :
  ToLower (name tapi) = "@api" ->
  returned_error (parser_parseAPI fuel (tapi :: rest)) = Ret None ->
  exists fuel' d0 d1 d2 o,
    fuel = S (S fuel') /\
    split (data tapi) 3 = [d0; d1; d2] /\
    api_parseAPI fuel (set_route (ToUpper d0) d1 d2 api0) rest
    = Ret (o, [], None).
Proof.
  intros Hn. unfold parser.parser_parseAPI.
  destruct fuel as [|fuel]; [done|].
  rewrite parserLoop_api by done.
  destruct (split (data tapi) 3) as [|d0 [|d1 [|d2 [|d3 r]]]]; try done.
  destruct (api_parseAPI (S fuel) (set_route (ToUpper d0) d1 d2 api0) rest)
    as [[[o l2] [e|]]| |] eqn:Hrun; try done.
  pose proof (api_parseAPI_ok_nil _ _ _ _ _ Hrun) as ->.
  destruct fuel as [|fuel]; [done|]. intros _.
  by exists fuel, d0, d1, d2, o.
Qed.

Lemma block_error fuel tapi rest d0 d1 d2 o l' e :
  ToLower (name tapi) = "@api" ->
  split (data tapi) 3 = [d0; d1; d2] ->
  api_parseAPI (S fuel) (set_route (ToUpper d0) d1 d2 api0) rest
  = Ret (o, l', Some e) ->
  parser_parseAPI (S fuel) (tapi :: rest) = Ret (o, l', Some e).
Proof.
  intros Hn Hsplit Hrun. unfold parser.parser_parseAPI.
  rewrite parserLoop_api by done. by rewrite Hsplit, Hrun.
Qed.

Lemma block_ok fuel tapi rest d0 d1 d2 o l' :
  ToLower (name tapi) = "@api" ->
  split (data tapi) 3 = [d0; d1; d2] ->
  api_parseAPI (S (S fuel)) (set_route (ToUpper d0) d1 d2 api0) rest
  = Ret (o, l', None) ->
  parser_parseAPI (S (S fuel)) (tapi :: rest) = Ret (o, [], None).
Proof.
  intros Hn Hsplit Hrun. unfold parser.parser_parseAPI.
  rewrite parserLoop_api by done. rewrite Hsplit, Hrun.
  by rewrite (api_parseAPI_ok_nil _ _ _ _ _ Hrun).
Qed.

(** Every object [parser.parseAPI] hands on without error has an empty or
    valid version. *)
Lemma parserLoop_versionOk fuel : forall obj l o l',
  versionOk SemVerValid obj ->
  parserLoop fuel obj l = Ret (o, l', None) ->
  versionOk SemVerValid o.
Proof.
  induction fuel as [|fuel IH]; intros obj l o l' Hv; [done|].
  destruct l as [|t l1]; cbn [parser.parserLoop]; [by intros [= <- _]|].
  cbv zeta. case_eqb.
  { case_match_goal; [done|].
    destruct (split (data t) 3) as [|d0 [|d1 [|d2 [|d3 r]]]]; try done.
    destruct (api_parseAPI (S fuel) (set_route (ToUpper d0) d1 d2 obj) l1)
      as [[[o2 l2] [e|]]| |] eqn:Hrun; try done.
    apply IH. by eapply api_parseAPI_versionOk; [|exact Hrun]. }
  case_eqb.
  { destruct (split (data t) 2) as [|d0 [|d1 [|d2 r]]]; try done.
    rewrite parseRequest_spec. by apply IH. }
  case_eqb; [by apply IH | done].
Qed.

(** A version, once stored, is never written again. *)
Lemma apiTag_version_kept fuel obj t o e :
  version obj <> "" ->
  apiTag fuel obj t = Ret (o, e) ->
  version o = version obj.
Proof.
  unfold parser.apiTag. cbv zeta.
  repeat (case_eqb || case_match_goal); intros Hv [= <- <-]; done.
Qed.

Lemma api_parseAPI_version_kept fuel l : forall obj o l' e,
  version obj <> "" ->
  api_parseAPI fuel obj l = Ret (o, l', e) ->
  version o = version obj.
Proof.
  induction l as [|t l IH]; intros obj o l' e Hv.
  - by intros [= <- _ _].
  - rewrite api_parseAPI_cons.
    destruct (apiTag fuel obj t) as [[o1 [e1|]]| |] eqn:Ht; try done.
    + intros [= <- _ _]. by eapply apiTag_version_kept.
    + intros Hrun. pose proof (apiTag_version_kept _ _ _ _ _ Hv Ht) as H1.
      rewrite <- H1. eapply IH; [|exact Hrun]. by rewrite H1.
Qed.

(** The whole of [parser.parseAPI] on a block that opens with a
    well-formed @api tag, with fuel for two turns. *)
Lemma block_run fuel tapi rest d0 d1 d2 :
  ToLower (name tapi) = "@api" ->
  split (data tapi) 3 = [d0; d1; d2] ->
  parser_parseAPI (S (S fuel)) (tapi :: rest) =
    match api_parseAPI (S (S fuel)) (set_route (ToUpper d0) d1 d2 api0) rest with
    | Ret (o2, l2, Some e) => Ret (o2, l2, Some e)
    | Ret (o2, l2, None) => Ret (o2, [], None)
    | Panic => Panic
    | Timeout => Timeout
    end.
Proof.
  intros Hn Hsplit. unfold parser.parser_parseAPI.
  rewrite parserLoop_api by done. rewrite Hsplit.
  destruct (api_parseAPI (S (S fuel)) (set_route (ToUpper d0) d1 d2 api0) rest)
    as [[[o2 l2] [e|]]| |] eqn:Hrun; try done.
  by rewrite (api_parseAPI_ok_nil _ _ _ _ _ Hrun).
Qed.

End ParserFacts.

Section ParserClaims.
Import GoStd openapi parser notions.

Variable split : string -> nat -> list string.
Variable SemVerValid : string -> bool.

Local Abbreviation api_parseAPI := (parser.api_parseAPI split SemVerValid).
Local Abbreviation parser_parseAPI := (parser.parser_parseAPI split SemVerValid).


(** C6, as amended. In a block that opens with @api (tag names in
    ASCII), at the first @apiVersion tag, the block before it having parsed
    without error: an invalid value makes parsing fail with
    ErrInvalidFormat, so no API comes out of the block; a valid value is
    the version of the API, whatever follows the tag (and the call returns
    whenever the @apitags loops of what follows do); and whatever the
    block, the version of an API parsed without error is empty or passes
    the check. *)
Theorem version_checked fuel tapi pre t post :
  ToLower (name tapi) = "@api" ->
  asciiNames pre ->
  asciiNames post ->
  Forall (fun u => ToLower (name u) <> "@apiversion") pre ->
  ToLower (name t) = "@apiversion" ->
  returned_error (parser_parseAPI fuel (tapi :: pre)) = Ret None ->
  (SemVerValid (data t) = false ->
   returned_error (parser_parseAPI fuel (tapi :: pre ++ t :: post))
   = Ret (Some (syntaxError t (Sprintf ErrInvalidFormat "@apiVersion")))) /\
  (SemVerValid (data t) = true ->
   exists o, parser_parseAPI fuel (tapi :: pre ++ [t]) = Ret (o, [], None) /\
             version o = data t) /\
  (SemVerValid (data t) = true -> data t <> "" ->
   (forall o l' e,
      parser_parseAPI fuel (tapi :: pre ++ t :: post) = Ret (o, l', e) ->
      version o = data t) /\
   (tagsReturn post ->
    exists o l' e,
      parser_parseAPI fuel (tapi :: pre ++ t :: post) = Ret (o, l', e) /\
      version o = data t)) /\
  (forall l o l', asciiNames l ->
     parser_parseAPI fuel l = Ret (o, l', None) -> versionOk SemVerValid o).
Proof.
  intros Hapi _ _ Hpre Hn Hok.
  destruct (block_ok_inv split SemVerValid _ _ _ Hapi Hok)
    as (fuel' & d0 & d1 & d2 & o & -> & Hsplit & Hrun).
  assert (Hv : version o = "")
    by (by rewrite (api_parseAPI_version_frame split SemVerValid _ _ _ _ _ Hpre Hrun)).
  pose proof (apiTag_version split SemVerValid (S (S fuel')) o t Hn Hv) as Hstep.
  split; [|split; [|split]].
  - intros Hbad. rewrite Hbad in Hstep.
    erewrite block_error; [done..|].
    rewrite (api_parseAPI_app split SemVerValid _ _ _ _ _ _ Hrun), api_parseAPI_cons.
    by rewrite Hstep.
  - intros Hgood. rewrite Hgood in Hstep.
    exists (set_version (data t) o). split; [|done].
    eapply block_ok; [done..|].
    rewrite (api_parseAPI_app split SemVerValid _ _ _ _ _ _ Hrun), api_parseAPI_cons.
    by rewrite Hstep.
  - intros Hgood Hdata. rewrite Hgood in Hstep.
    assert (Hlong : parser.api_parseAPI split SemVerValid (S (S fuel'))
                      (set_route (ToUpper d0) d1 d2 api0) (pre ++ t :: post)
                    = parser.api_parseAPI split SemVerValid (S (S fuel'))
                        (set_version (data t) o) post).
    { rewrite (api_parseAPI_app split SemVerValid _ _ _ _ _ _ Hrun),
              api_parseAPI_cons. by rewrite Hstep. }
    assert (Hkept : forall o2 l2 e2,
              parser.api_parseAPI split SemVerValid (S (S fuel'))
                (set_version (data t) o) post = Ret (o2, l2, e2) ->
              version o2 = data t).
    { intros o2 l2 e2 Hr.
      by apply (api_parseAPI_version_kept split SemVerValid _ _
                  (set_version (data t) o) _ _ _) in Hr. }
    rewrite (block_run split SemVerValid _ _ _ _ _ _ Hapi Hsplit), Hlong.
    split.
    + intros o2 l2 e2.
      destruct (parser.api_parseAPI split SemVerValid (S (S fuel'))
                  (set_version (data t) o) post)
        as [[[o3 l3] [e3|]]| |] eqn:Hr; try done;
        intros [= <- _ _]; by eapply Hkept.
    + intros Hret.
      destruct (api_parseAPI_returns split SemVerValid (S fuel') post
                  (set_version (data t) o) Hret) as (o3 & l3 & e3 & Hr).
      rewrite Hr. pose proof (Hkept _ _ _ Hr) as Hver.
      destruct e3 as [e3|]; [by exists o3, l3, (Some e3) | by exists o3, [], None].
  - intros l o' l' _. apply parserLoop_versionOk. by left.
Qed.

(** C5 (the code departs from it). On the tag @apiTags with data "a, b ,c" the
    inner loop of [api.parseAPI] never returns: whatever the fuel, the call
    has not returned, so no tag list ["a"; "b"; "c"] comes out. *)
Theorem apiTags_example_spins fuel :
  tagsLoop fuel "a, b ,c" "a, b ,c" [] = Timeout /\
  returned_error (api_parseAPI fuel api0 [tagAt 1 "@apiTags" "a, b ,c"])
  = Timeout.
Proof.
  assert (Hloop : tagsLoop fuel "a, b ,c" "a, b ,c" [] = Timeout)
    by (apply tagsLoop_spins; by vm_compute).
  split; [done|].
  rewrite api_parseAPI_cons. unfold parser.apiTag. cbn -[tagsLoop].
  by rewrite Hloop.
Qed.

End ParserClaims.

(** ** Upper case, byte by byte *)

Section CaseFacts.
Import GoStd types notions.

Lemma upper_byte_spells c C :
  Ascii.eqb c C
  || (upperLetter C && (nat_of_ascii c =? nat_of_ascii C + 32)%nat) = true ->
  upper_byte c = upper_byte C.
Proof.
  rewrite orb_true_iff, andb_true_iff. intros [Heq | [Hup Hlow]].
  - by apply Ascii.eqb_eq in Heq as ->.
  - apply Nat.eqb_eq in Hlow.
    assert (Hc : c = ascii_of_nat (nat_of_ascii C + 32))
      by (by rewrite <- Hlow, ascii_nat_embedding).
    subst c. clear Hlow.
    destruct C as [[] [] [] [] [] [] [] []];
      first [discriminate Hup | reflexivity].
Qed.

Lemma upper_byte_capital c :
  upperLetter (upper_byte c) = true ->
  Ascii.eqb c (upper_byte c)
  || (upperLetter (upper_byte c)
      && (nat_of_ascii c =? nat_of_ascii (upper_byte c) + 32)%nat) = true.
Proof.
  destruct c as [[] [] [] [] [] [] [] []];
    first [discriminate | reflexivity].
Qed.

(** A spelling of [M] up to case has the upper case of [M]. *)
Lemma spells_ToUpper M : forall d,
  spells M d = true -> ToUpper d = ToUpper M.
Proof.
  induction M as [|C M IH]; intros [|c d]; cbn [spells]; try done.
  rewrite andb_true_iff. intros [Hc Hd]. cbn [ToUpper].
  by rewrite (upper_byte_spells _ _ Hc), (IH _ Hd).
Qed.

(** A string whose upper case is all capitals spells it. *)
Lemma ToUpper_spells d : 
  allUpper (ToUpper d) = true -> spells (ToUpper d) d = true.
Proof.
  induction d as [|c d IH]; [done|].
  cbn [ToUpper allUpper spells]. rewrite !andb_true_iff.
  intros [Hc Hd]. split; [by apply upper_byte_capital | by apply IH].
Qed.

Lemma methods_upper M :
  M ∈ methods -> ToUpper M = M /\ allUpper M = true.
Proof.
  unfold methods. rewrite !elem_of_cons, elem_of_nil.
  intros Hin. repeat destruct Hin as [-> | Hin]; done.
Qed.

(** The switch of [getOperation] finds a method exactly when the token
    spells one of the eight. *)
Lemma spells_method m M :
  M ∈ methods -> spells M m = true -> ToUpper m = M.
Proof.
  intros HM Hs. rewrite (spells_ToUpper _ _ Hs). by apply methods_upper.
Qed.

Lemma spells_none m :
  Forall (fun M => spells M m = false) methods -> ToUpper m ∉ methods.
Proof.
  intros Hall Hin. rewrite Forall_forall in Hall.
  pose proof (Hall _ Hin) as Hno.
  destruct (methods_upper _ Hin) as [_ Hup].
  by rewrite (ToUpper_spells _ Hup) in Hno.
Qed.

End CaseFacts.

Section MethodClaim.
Import GoStd openapi parser types notions.

Variable split : string -> nat -> list string.
Variable SemVerValid : string -> bool.

Local Abbreviation parser_parseAPI := (parser.parser_parseAPI split SemVerValid).

(** C4. The method token is matched whatever its case (tokens and tag
    names in ASCII).  The parser stores the token of an @api tag in upper
    case: when the block is parsed (each @apitags loop returning), the
    object handed back carries [ToUpper] of the token, which is the method
    itself when the token spells one of the eight methods in any mix of
    small and capital letters.  In the builder, a token that spells one of
    the eight methods selects the field of that method, where the operation
    is installed if the field is free; a token that spells none of them
    makes the add fail with the invalid-method error and no operation of
    the document changes. *)
Theorem method_normalized fuel t l d0 d1 d2 doc api m p s :
  ToLower (name t) = "@api" ->
  split (data t) 3 = [d0; d1; d2] ->
  isASCII d0 = true ->
  asciiNames l ->
  tagsReturn l ->
  SplitN (API_ api) " " 3 = [m; p; s] ->
  isASCII m = true ->
  (exists o l' e,
     parser_parseAPI (S (S fuel)) (t :: l) = Ret (o, l', e) /\
     method o = ToUpper d0 /\
     (forall M, M ∈ methods -> spells M d0 = true -> method o = M)) /\
  (forall M, M ∈ methods -> spells M m = true ->
   exists sl, slotMethod sl = M /\
     (opAt doc p sl = None ->
      (types.parseAPI doc api).2 = None /\
      opAt (types.parseAPI doc api).1 p sl = Some (fill api Operation0))) /\
  (Forall (fun M => spells M m = false) methods ->
   (types.parseAPI doc api).2 = Some ErrInvalidMethod /\
   forall p' sl', opAt (types.parseAPI doc api).1 p' sl' = opAt doc p' sl').
Proof.
  intros Hn Hsplit _ _ Htags Hthree _. split; [|split].
  - unfold parser.parser_parseAPI. rewrite parserLoop_api by done.
    rewrite Hsplit.
    destruct (api_parseAPI_returns split SemVerValid (S fuel) l
                (set_route (ToUpper d0) d1 d2 api0) Htags)
      as (o & l' & e & Hrun).
    rewrite Hrun.
    destruct (api_parseAPI_frame split SemVerValid _ _ _ _ _ _ Hrun)
      as (Hm & _).
    assert (Hsp : forall M, M ∈ methods -> spells M d0 = true -> method o = M).
    { intros M HM Hs. rewrite Hm. cbn. by apply spells_method. }
    destruct e as [e|]; [by exists o, l', (Some e)|].
    rewrite (api_parseAPI_ok_nil split SemVerValid _ _ _ _ _ Hrun).
    by exists o, [], None.
  - intros M HM Hs. pose proof (spells_method _ _ HM Hs) as Hup.
    destruct (methodSlot (ToUpper m)) as [sl|] eqn:Hsl.
    + exists sl. split; [by rewrite <- (methodSlot_sound _ _ Hsl)|].
      intros Hfree. by eapply parseAPI_free.
    + apply methodSlot_methods in Hsl. by rewrite Hup in Hsl.
  - intros Hout. apply spells_none, methodSlot_methods in Hout.
    rewrite (parseAPI_spec _ _ _ _ _ Hthree), Hout. cbn [fst snd].
    split; [done|]. intros p' sl'. apply opAt_created.
Qed.

End MethodClaim.

(** ** The block scanner *)

Section ScannerFacts.
Import GoStd build.
Context {Lexer Blocker : Type} `{LexerAPI Lexer Blocker}.
Variable ReadAll : string -> string -> string + string.

(** With no blocker pending, the local [pos] is overwritten before it is
    read. *)
Lemma parseLoop_pos fuel uri (l : Lexer) pos pos' :
  parseLoop fuel uri l None pos = parseLoop fuel uri l None pos'.
Proof. by destruct fuel. Qed.

(** A turn that finds the end of its block. *)
Lemma parseLoop_turn fuel uri (l : Lexer) ob l1 pos :
  turn uri l = Some (ob, l1) ->
  parseLoop (S fuel) uri l None pos =
    (from_option (fun b => [EvBlock b]) [] ob ++ (parseLoop fuel uri l1 None pos).1,
     (parseLoop fuel uri l1 None pos).2).
Proof.
  unfold turn. cbn [parseLoop].
  destruct (AtEOF l); [done|].
  destruct (Block_ l) as [[[b pos1]|] l0]; [|done].
  destruct (EndFunc b l0) as [[[raw data] ok] l2].
  destruct ok; cbn [negb]; [|done].
  destruct (len raw =? 0); intros [= <- <-]; cbn [from_option app].
  - rewrite (parseLoop_pos fuel uri l2 pos1 pos).
    by destruct (parseLoop fuel uri l2 None pos).
  - rewrite (parseLoop_pos fuel uri l2 pos1 pos).
    by destruct (parseLoop fuel uri l2 None pos).
Qed.

(** The turn that does not find the end of its block. *)
Lemma parseLoop_unterminated fuel uri (l : Lexer) pos pos0 :
  unterminated l pos ->
  parseLoop (S fuel) uri l None pos0 =
    ([EvError (NewLocaleError uri "" (Line pos) ErrNotFoundEndFlag)], true).
Proof.
  intros (Heof & b & l1 & raw & data & l2 & Hblock & Hend).
  cbn [parseLoop]. by rewrite Heof, Hblock, Hend.
Qed.

(** The loop follows a scan, one unit of fuel per turn. *)
Lemma parseLoop_scan uri (l : Lexer) bs l' :
  scan uri l bs l' ->
  exists n, forall fuel pos,
    parseLoop (n + fuel) uri l None pos =
      ((EvBlock <$> bs) ++ (parseLoop fuel uri l' None pos).1,
       (parseLoop fuel uri l' None pos).2).
Proof.
  induction 1 as [l | l l1 bs l' Hturn _ [n IH] | l b l1 bs l' Hturn _ [n IH]].
  - exists 0%nat. intros fuel pos. cbn. by destruct (parseLoop fuel uri l None pos).
  - exists (S n). intros fuel pos. cbn [Nat.add].
    rewrite (parseLoop_turn _ _ _ _ _ _ Hturn). cbn [from_option app].
    by rewrite IH.
  - exists (S n). intros fuel pos. cbn [Nat.add].
    rewrite (parseLoop_turn _ _ _ _ _ _ Hturn). cbn [from_option app].
    by rewrite IH.
Qed.

(** C7. When the end of a block is not found before the end of the file,
    parseFile returns after sending the blocks found before it and then one
    ErrNotFoundEndFlag diagnostic, which carries the line where that block
    opens; the diagnostic is the last thing the call emits, so no block of
    the file follows it. *)
Theorem unterminated_block_reported o uri data (l : Lexer) bs l' pos :
  ReadAll uri (encoding o) = inl data ->
  NewLexer data (blocks o) = inl l ->
  scan uri l bs l' ->
  unterminated l' pos ->
  exists fuel0, forall fuel, (fuel0 <= fuel)%nat ->
    parseFile ReadAll fuel o uri =
      ((EvBlock <$> bs) ++
         [EvError (NewLocaleError uri "" (Line pos) ErrNotFoundEndFlag)],
       true).
Proof.
  intros Hread Hnew Hscan Hopen.
  destruct (parseLoop_scan _ _ _ _ Hscan) as [n Hn].
  exists (n + 1)%nat. intros fuel Hfuel. unfold parseFile.
  rewrite Hread, Hnew.
  replace fuel with (n + S (fuel - n - 1))%nat by lia.
  by rewrite Hn, (parseLoop_unterminated _ _ _ _ _ Hopen).
Qed.

(** C8, as amended. A block whose end is found is dropped without a trace
    (no block sent, no diagnostic) when its raw text is empty, and is sent
    with its data and raw text when its raw text is not empty, whether or
    not its data is empty. *)
Theorem block_sent_iff_raw fuel uri (l : Lexer) b pos1 l1 raw data l2 pos0 :
  AtEOF l = false ->
  Block_ l = (Some (b, pos1), l1) ->
  EndFunc b l1 = (raw, data, true, l2) ->
  (raw = "" ->
   parseLoop (S fuel) uri l None pos0 = parseLoop fuel uri l2 None pos1) /\
  (raw <> "" ->
   parseLoop (S fuel) uri l None pos0 =
     (EvBlock (mkBlock uri (mkRange pos1 (Position_ l2)) data raw)
        :: (parseLoop fuel uri l2 None pos1).1,
      (parseLoop fuel uri l2 None pos1).2)).
Proof.
  intros Heof Hblock Hend. cbn [parseLoop]. rewrite Heof, Hblock, Hend.
  cbn [negb]. split.
  - by intros ->.
  - intros Hraw. destruct raw as [|c r]; [done|].
    replace (len (String c r) =? 0) with false
      by (symmetry; apply Z.eqb_neq; unfold len; cbn; lia).
    by destruct (parseLoop fuel uri l2 None pos1).
Qed.

End ScannerFacts.

(** ** The claims on concrete blocks *)

Section ParserExamples.
Import GoStd openapi parser.

Local Abbreviation run := (parser.parser_parseAPI model.split model.SemVerValid).

(** Scenario S1: a GET with its group and version, no diagnostics. *)
Example minimal_get_s1 :
  run 2 [tagAt 1 "@api" "GET /users/{id} get one";
         tagAt 2 "@apiGroup" "users"; tagAt 3 "@apiVersion" "1.0.0"]
  = Ret (mkApi "GET" "/users/{id}" "get one" "" "users" [] "1.0.0" false []
               None ∅, [], None).
Proof. reflexivity. Qed.



Lemma version_checked_witness :
  returned_error
    (run 3 (tagAt 1 "@api" "GET /x one" ::
            [tagAt 2 "@apiGroup" "users"] ++ tagAt 3 "@apiVersion" "1.0" ::
            [tagAt 4 "@apiTags" "t"]))
  = Ret (Some (syntaxError (tagAt 3 "@apiVersion" "1.0")
                 (Sprintf ErrInvalidFormat "@apiVersion"))) /\
  (exists o,
     run 3 (tagAt 1 "@api" "GET /x one" ::
            [tagAt 2 "@apiGroup" "users"] ++ [tagAt 3 "@apiVersion" "1.0.0"])
     = Ret (o, [], None) /\ version o = "1.0.0") /\
  (exists o l' e,
     run 3 (tagAt 1 "@api" "GET /x one" ::
            [tagAt 2 "@apiGroup" "users"] ++ tagAt 3 "@apiVersion" "1.0.0" ::
            [tagAt 4 "@apiTags" "t"; tagAt 5 "@apiGroup" "admins"])
     = Ret (o, l', e) /\ version o = "1.0.0").
Proof.
  split; [|split].
  - destruct (version_checked model.split model.SemVerValid 3
                (tagAt 1 "@api" "GET /x one") [tagAt 2 "@apiGroup" "users"]
                (tagAt 3 "@apiVersion" "1.0") [tagAt 4 "@apiTags" "t"])
      as (Hbad & _).
    + reflexivity.
    + repeat constructor.
    + repeat constructor.
    + repeat constructor; discriminate.
    + reflexivity.
    + reflexivity.
    + apply Hbad. reflexivity.
  - destruct (version_checked model.split model.SemVerValid 3
                (tagAt 1 "@api" "GET /x one") [tagAt 2 "@apiGroup" "users"]
                (tagAt 3 "@apiVersion" "1.0.0") [])
      as (_ & Hgood & _).
    + reflexivity.
    + repeat constructor.
    + repeat constructor.
    + repeat constructor; discriminate.
    + reflexivity.
    + reflexivity.
    + apply Hgood. reflexivity.
  - destruct (version_checked model.split model.SemVerValid 3
                (tagAt 1 "@api" "GET /x one") [tagAt 2 "@apiGroup" "users"]
                (tagAt 3 "@apiVersion" "1.0.0")
                [tagAt 4 "@apiTags" "t"; tagAt 5 "@apiGroup" "admins"])
      as (_ & _ & Hany & _).
    + reflexivity.
    + repeat constructor.
    + repeat constructor.
    + repeat constructor; discriminate.
    + reflexivity.
    + reflexivity.
    + destruct Hany as (_ & Hret); [reflexivity | discriminate |].
      apply Hret. repeat constructor; intros _; by vm_compute.
Defined.

(** C6 as written does not hold for a second @apiVersion: after a valid
    first one, an invalid value fails with ErrDuplicateTag, not with
    ErrInvalidFormat, and a valid value is refused as well, not stored. *)
Lemma version_checked_counterexample :
  model.SemVerValid "bad" = false /\
  returned_error
    (run 3 [tagAt 1 "@api" "GET /x one"; tagAt 2 "@apiVersion" "1.0.0";
            tagAt 3 "@apiVersion" "bad"])
  = Ret (Some (syntaxError (tagAt 3 "@apiVersion" "bad")
                 (Sprintf ErrDuplicateTag "@apiVersion"))) /\
  model.SemVerValid "2.0.0" = true /\
  returned_error
    (run 3 [tagAt 1 "@api" "GET /x one"; tagAt 2 "@apiVersion" "1.0.0";
            tagAt 3 "@apiVersion" "2.0.0"])
  = Ret (Some (syntaxError (tagAt 3 "@apiVersion" "2.0.0")
                 (Sprintf ErrDuplicateTag "@apiVersion"))).
Proof. repeat split; reflexivity. Qed.

(** C2 (the code departs from it). In the subtree of @apiRequest the tag @apiGroup,
    which is neither @apiHeader nor @apiParam, is read and dropped like
    every tag after it: [parseRequest] hands the lexer back at eof, the
    outer loop sees eof next and the block parses without error, where the
    outer loop reports a tag it is handed, such as @apiGroup, as invalid. *)
Theorem request_unknown_tag_consumed :
  (forall obj t l mt typ,
     (parseRequest obj (t :: l) mt typ).1.2 = [] /\
     lexer_tag (parseRequest obj (t :: l) mt typ).1.2 = (None, [])) /\
  run 3 [tagAt 1 "@apiRequest" "application/json object";
         tagAt 2 "@apiGroup" "users"]
  = Ret (set_request
           (Some (mkRequestBody
                    {[ "application/json" :=
                         mkMediaType (Some (mkSchema "object" "")) ]}))
           api0, [], None) /\
  returned_error (run 3 [tagAt 2 "@apiGroup" "users"])
  = Ret (Some (syntaxError (tagAt 2 "@apiGroup" "users")
                 (Sprintf ErrInvalidTag "@apiGroup"))).
Proof.
  split; [|split; reflexivity].
  intros obj t l mt typ. rewrite parseRequest_spec. by cbn.
Qed.

(** C10 (the code departs from it). A second @apiRequest tag should
    replace the request body by one that holds its media type alone, as
    [parseRequest] does when it is called.  On a block the call for the
    second tag never happens: whatever follows the first @apiRequest is read
    and dropped inside its subtree (the empty default case of
    [parseRequest], whose TODO asks for the pushback), so the body keeps
    the media type of the first tag; the second tag taken alone gives the
    body the claim describes. *)
Theorem second_request_dropped :
  (forall fuel t1 l m1 ty1,
     ToLower (name t1) = "@apirequest" ->
     model.split (data t1) 2 = [m1; ty1] ->
     run (S (S fuel)) (t1 :: l)
     = Ret (set_request
              (Some (mkRequestBody
                       {[ m1 := mkMediaType (Some (mkSchema ty1 "")) ]}))
              api0, [], None)) /\
  (exists o,
     run 3 [tagAt 1 "@apiRequest" "application/json object";
            tagAt 2 "@apiRequest" "application/xml array"]
     = Ret (o, [], None) /\
     request o
     = Some (mkRequestBody
               {[ "application/json" :=
                    mkMediaType (Some (mkSchema "object" "")) ]}) /\
     (forall r, request o = Some r -> Content r !! "application/xml" = None)) /\
  (exists o,
     run 3 [tagAt 2 "@apiRequest" "application/xml array"]
     = Ret (o, [], None) /\
     request o
     = Some (mkRequestBody
               {[ "application/xml" :=
                    mkMediaType (Some (mkSchema "array" "")) ]})).
Proof.
  split; [|split].
  - intros fuel t1 l m1 ty1 Hn Hsplit.
    unfold parser.parser_parseAPI. cbn [parser.parserLoop].
    rewrite Hn, Hsplit. cbn [String.eqb Ascii.eqb Bool.eqb].
    by rewrite parseRequest_spec.
  - eexists. split; [reflexivity|]. split; [reflexivity|].
    intros r [= <-]. reflexivity.
  - eexists. split; reflexivity.
Qed.

Lemma second_request_dropped_witness :
  run 2 [tagAt 1 "@apiRequest" "application/json object";
         tagAt 2 "@apiRequest" "application/xml array";
         tagAt 3 "@apiGroup" "users"]
  = Ret (set_request
           (Some (mkRequestBody
                    {[ "application/json" :=
                         mkMediaType (Some (mkSchema "object" "")) ]}))
           api0, [], None).
Proof.
  destruct second_request_dropped as (Hfirst & _).
  apply (Hfirst 0%nat (tagAt 1 "@apiRequest" "application/json object")).
  - reflexivity.
  - reflexivity.
Defined.

End ParserExamples.

Section ScannerExamples.
Import GoStd build.

Local Abbreviation parseFileC :=
  (build.parseFile (H := model.lexerAPI) (model.ReadAll model.files)).

(** Scenario S3: the only comment of the file has no end; one diagnostic,
    at the line where it opens, and no block. *)
Lemma unterminated_s3 :
  parseFileC 2 model.cInput "s3.c"
  = ([EvError (NewLocaleError "s3.c" "" 0 ErrNotFoundEndFlag)], true).
Proof. reflexivity. Qed.

Lemma unterminated_block_reported_witness :
  exists fuel0, forall fuel, (fuel0 <= fuel)%nat ->
    parseFileC fuel model.cInput "two.c" =
      ((EvBlock <$>
          [mkBlock "two.c" (mkRange (mkPosition 0 2 2) (mkPosition 0 9 9))
                   "x " "/* x */"]) ++
         [EvError (NewLocaleError "two.c" ""
                     (Line (mkPosition 1 1 13)) ErrNotFoundEndFlag)],
       true).
Proof.
  apply (unterminated_block_reported (H := model.lexerAPI)
           (model.ReadAll model.files) model.cInput "two.c"
           ("a /* x */ b" +:+ String "010" " /* c")
           (model.mkLexer ("a /* x */ b" +:+ String "010" " /* c") model.cBlocks 0)
           [mkBlock "two.c" (mkRange (mkPosition 0 2 2) (mkPosition 0 9 9))
                    "x " "/* x */"]
           (model.mkLexer ("a /* x */ b" +:+ String "010" " /* c") model.cBlocks 9)
           (mkPosition 1 1 13)).
  - reflexivity.
  - reflexivity.
  - eapply scan_send; [reflexivity | apply scan_here].
  - split; [reflexivity|]. do 5 eexists. split; reflexivity.
Defined.

Lemma block_sent_iff_raw_witness :
  ("/* */" = "" ->
   build.parseLoop (H := model.lexerAPI) 2 "empty.c"
     (model.mkLexer "/* */" model.cBlocks 0) None (mkPosition 0 0 0)
   = build.parseLoop (H := model.lexerAPI) 1 "empty.c"
       (model.mkLexer "/* */" model.cBlocks 5) None (mkPosition 0 0 0)) /\
  ("/* */" <> "" ->
   build.parseLoop (H := model.lexerAPI) 2 "empty.c"
     (model.mkLexer "/* */" model.cBlocks 0) None (mkPosition 0 0 0)
   = (EvBlock (mkBlock "empty.c"
                 (mkRange (mkPosition 0 0 0)
                    (model.Position_ (model.mkLexer "/* */" model.cBlocks 5)))
                 "" "/* */")
        :: (build.parseLoop (H := model.lexerAPI) 1 "empty.c"
              (model.mkLexer "/* */" model.cBlocks 5) None (mkPosition 0 0 0)).1,
      (build.parseLoop (H := model.lexerAPI) 1 "empty.c"
         (model.mkLexer "/* */" model.cBlocks 5) None (mkPosition 0 0 0)).2)).
Proof.
  apply (block_sent_iff_raw (H := model.lexerAPI) 1 "empty.c"
           (model.mkLexer "/* */" model.cBlocks 0) ("/*", "*/", true)
           (mkPosition 0 0 0) (model.mkLexer "/* */" model.cBlocks 2)
           "/* */" "" (model.mkLexer "/* */" model.cBlocks 5)
           (mkPosition 0 0 0)); reflexivity.
Defined.

(** C8 as written does not hold: the comment of empty.c has nothing
    inside, its data is empty, and it is sent all the same, because its
    raw text is not empty. *)
Lemma block_sent_iff_raw_counterexample :
  parseFileC 2 model.cInput "empty.c"
  = ([EvBlock (mkBlock "empty.c"
                 (mkRange (mkPosition 0 0 0) (mkPosition 0 5 5)) "" "/* */")],
     true).
Proof. reflexivity. Qed.

End ScannerExamples.

Section MethodExamples.
Import GoStd openapi parser types notions.

Lemma method_normalized_witness :
  (exists o l' e,
     parser.parser_parseAPI model.split model.SemVerValid 2
       (tagAt 1 "@api" "get /x one" :: [tagAt 2 "@apiTags" "t"])
     = Ret (o, l', e) /\
     method o = "GET") /\
  (exists sl, slotMethod sl = "GET" /\
     (types.parseAPI doc0 (apiOf "gEt /x one")).2 = None /\
     opAt (types.parseAPI doc0 (apiOf "gEt /x one")).1 "/x" sl
     = Some (fill (apiOf "gEt /x one") Operation0)) /\
  ((types.parseAPI doc0 (apiOf "FOO /x hi")).2 = Some ErrInvalidMethod /\
   forall p' sl',
     opAt (types.parseAPI doc0 (apiOf "FOO /x hi")).1 p' sl' = opAt doc0 p' sl').
Proof.
  split; [|split].
  - destruct (method_normalized model.split model.SemVerValid 0
                (tagAt 1 "@api" "get /x one") [tagAt 2 "@apiTags" "t"]
                "get" "/x" "one" doc0 (apiOf "gEt /x one") "gEt" "/x" "one")
      as ((o & l' & e & Hrun & _ & Hm) & _).
    + reflexivity.
    + reflexivity.
    + reflexivity.
    + repeat constructor.
    + constructor; [|constructor]. intros _. by vm_compute.
    + reflexivity.
    + reflexivity.
    + exists o, l', e. split; [exact Hrun|].
      apply Hm; [|reflexivity].
      unfold methods. rewrite !elem_of_cons. by left.
  - destruct (method_normalized model.split model.SemVerValid 0
                (tagAt 1 "@api" "get /x one") [tagAt 2 "@apiTags" "t"]
                "get" "/x" "one" doc0 (apiOf "gEt /x one") "gEt" "/x" "one")
      as (_ & Hin & _).
    + reflexivity.
    + reflexivity.
    + reflexivity.
    + repeat constructor.
    + constructor; [|constructor]. intros _. by vm_compute.
    + reflexivity.
    + reflexivity.
    + destruct (Hin "GET") as (sl & Hsl & Hfree).
      * unfold methods. rewrite !elem_of_cons. by left.
      * reflexivity.
      * exists sl. split; [exact Hsl|]. apply Hfree. by destruct sl.
  - destruct (method_normalized model.split model.SemVerValid 0
                (tagAt 1 "@api" "FOO /x hi") []
                "FOO" "/x" "hi" doc0 (apiOf "FOO /x hi") "FOO" "/x" "hi")
      as (_ & _ & Hout).
    + reflexivity.
    + reflexivity.
    + reflexivity.
    + repeat constructor.
    + constructor.
    + reflexivity.
    + reflexivity.
    + apply Hout. repeat constructor.
Defined.

(** Scenario S5 on the builder: FOO is none of the eight methods. *)
Lemma invalid_method_s5 :
  (types.parseAPI doc0 (apiOf "FOO /x hi")).2 = Some ErrInvalidMethod /\
  forall sl, opAt (types.parseAPI doc0 (apiOf "FOO /x hi")).1 "/x" sl = None.
Proof. split; [reflexivity | by intros []]. Qed.

End MethodExamples.

(** * More of the code *)

(** ** Strings *)

Section StringFacts.
Import GoStd gostrings.

Lemma app_nil_s (b : string) : "" +:+ b = b.
Proof. reflexivity. Qed.

Lemma app_cons_s x (a b : string) : String x a +:+ b = String x (a +:+ b).
Proof. reflexivity. Qed.

Lemma index_byte_app_miss a b c :
  index_byte a c = None ->
  index_byte (a +:+ b) c = (fun i => (String.length a + i)%nat) <$> index_byte b c.
Proof.
  induction a as [|x a IH]; intros Ha.
  - rewrite app_nil_s. by destruct (index_byte b c).
  - rewrite app_cons_s. cbn in *.
    destruct (Ascii.eqb x c); [done|].
    destruct (index_byte a c) eqn:Hi; [done|].
    rewrite IH by done. by destruct (index_byte b c).
Qed.

Lemma index_byte_here a b c :
  index_byte a c = None ->
  index_byte (a +:+ String c b) c = Some (String.length a).
Proof.
  intros Ha. rewrite index_byte_app_miss by done. cbn.
  rewrite Ascii.eqb_refl. cbn. f_equal. lia.
Qed.

Lemma take_app_length a b : take (String.length a) (a +:+ b) = a.
Proof.
  induction a as [|x a IH]; [rewrite app_nil_s; by destruct b|].
  rewrite app_cons_s. cbn. by rewrite IH.
Qed.

Lemma drop_app_length a b : drop (String.length a) (a +:+ b) = b.
Proof.
  induction a as [|x a IH]; [rewrite app_nil_s; by destruct b|].
  rewrite app_cons_s. by cbn.
Qed.

Lemma Count_app a b c : Count (a +:+ b) c = (Count a c + Count b c)%nat.
Proof.
  induction a as [|x a IH]; [done|].
  rewrite app_cons_s. cbn. rewrite IH. lia.
Qed.

Lemma Count_miss a c : index_byte a c = None -> Count a c = 0%nat.
Proof.
  induction a as [|x a IH]; cbn; [done|].
  destruct (Ascii.eqb x c); [done|].
  destruct (index_byte a c); [done|]. intros _. by rewrite IH.
Qed.

Lemma app_assoc_s (a b c : string) : (a +:+ b) +:+ c = a +:+ (b +:+ c).
Proof.
  induction a as [|x a IH]; [done|]. rewrite !app_cons_s. by rewrite IH.
Qed.

Lemma app_empty_s (a : string) : a +:+ "" = a.
Proof. induction a as [|x a IH]; [done|]. rewrite app_cons_s. by rewrite IH. Qed.

Lemma length_app_s (a b : string) :
  String.length (a +:+ b) = (String.length a + String.length b)%nat.
Proof.
  induction a as [|x a IH]; [done|]. rewrite app_cons_s. cbn. by rewrite IH.
Qed.

Lemma Join_cons x y r sep : Join (x :: y :: r) sep = x +:+ sep +:+ Join (y :: r) sep.
Proof. reflexivity. Qed.

Lemma Count_Join parts :
  Forall (fun p => index_byte p "," = None) parts ->
  Count (Join parts ",") "," = (length parts - 1)%nat.
Proof.
  induction 1 as [|x r Hx Hr IH]; [done|].
  destruct r as [|y r]; [cbn; by rewrite Count_miss|].
  rewrite Join_cons, !Count_app, IH, Count_miss by done. cbn. lia.
Qed.

Lemma splitLoop_Join parts : forall k,
  Forall (fun p => index_byte p "," = None) parts ->
  parts <> [] ->
  (length parts - 1 <= k)%nat ->
  splitLoop k (Join parts ",") "," = parts.
Proof.
  induction parts as [|x r IH]; intros k Hall Hne Hk; [done|].
  inversion Hall as [|? ? Hx Hr]; subst.
  destruct r as [|y r].
  - cbn [Join]. destruct k; cbn; [done|]. by rewrite Hx.
  - rewrite Join_cons. destruct k as [|k]; [cbn in Hk; lia|].
    cbn [splitLoop]. rewrite app_cons_s, app_nil_s.
    rewrite index_byte_here by done.
    rewrite take_app_length. f_equal.
    change (S (String.length x)) with (String.length (String "," x)).
    replace (drop (String.length (String "," x)) (x +:+ String "," (Join (y :: r) ",")))
      with (Join (y :: r) ",").
    + apply IH; [done|done|cbn in *; lia].
    + clear. cbn [String.length]. induction x as [|c x IHx]; [done|].
      rewrite app_cons_s. cbn. exact IHx.
Qed.

Lemma Split_Join parts :
  Forall (fun p => index_byte p "," = None) parts ->
  parts <> [] ->
  Split (Join parts ",") "," = parts.
Proof.
  intros Hall Hne. unfold Split. apply splitLoop_Join; [done..|].
  by rewrite Count_Join.
Qed.

End StringFacts.

(** ** The -s flag of the mock command *)

Section Servers.
Import GoStd gostrings mock.

Lemma IndexByte_lt_len s c : IndexByte s c < len s.
Proof.
  unfold IndexByte, len.
  assert (forall i, index_byte s c = Some i -> (i < String.length s)%nat) as Hlt.
  { induction s as [|x s IH]; cbn; [done|].
    destruct (Ascii.eqb x c); [intros i [= <-]; lia|].
    destruct (index_byte s c) as [j|]; [|done].
    intros i [= <-]. specialize (IH j eq_refl). lia. }
  destruct (index_byte s c) as [i|] eqn:Hi; [|lia].
  specialize (Hlt i eq_refl). lia.
Qed.

Lemma setPairs_cons srv pr rest :
  0 < IndexByte pr "=" ->
  setPairs srv (pr :: rest) = setPairs (store srv pr) rest.
Proof.
  intros Hi. cbn [setPairs]. cbv zeta.
  rewrite (proj2 (Z.leb_gt _ _) Hi).
  by rewrite (proj2 (Z.ltb_lt _ _) (IndexByte_lt_len pr "=")).
Qed.

Lemma setPairs_stops good : forall srv bad rest,
  Forall (fun pr => 0 < IndexByte pr "=") good ->
  IndexByte bad "=" <= 0 ->
  setPairs srv (good ++ bad :: rest)
  = (foldl store srv good, Some ErrInvalidValue).
Proof.
  induction good as [|pr good IH]; intros srv bad rest Hgood Hbad.
  - cbn. by rewrite (proj2 (Z.leb_le _ _) Hbad).
  - inversion Hgood as [|? ? Hpr Hr]; subst. cbn [app foldl].
    rewrite setPairs_cons by done. by apply IH.
Qed.

Lemma setPairs_all parts : forall srv,
  Forall (fun pr => 0 < IndexByte pr "=") parts ->
  setPairs srv parts = (foldl store srv parts, None).
Proof.
  induction parts as [|pr parts IH]; intros srv Hall; [done|].
  inversion Hall as [|? ? Hpr Hr]; subst. cbn [foldl].
  rewrite setPairs_cons by done. by apply IH.
Qed.

Lemma Set_Join srv parts :
  Forall (fun pr => index_byte pr "," = None) parts ->
  (2 <= length parts)%nat ->
  head parts <> Some "" ->
  Set_ srv (Join parts ",") = setPairs srv (parts).
Proof.
  intros Hall Hlen Hfirst. unfold Set_.
  rewrite Split_Join; [|done|intros ->; cbn in Hlen; lia].
  destruct parts as [|x [|y r]]; cbn in Hlen; try lia.
  inversion Hall as [|? ? Hx Hr]; subst.
  rewrite Join_cons, app_cons_s, app_nil_s.
  unfold IndexByte. rewrite index_byte_here by done.
  destruct x as [|c x]; [done|]. cbn [String.length].
  replace (Z.of_nat (S (String.length x)) <=? 0) with false; [done|].
  symmetry. apply Z.leb_gt. lia.
Qed.

End Servers.

Section Servers2.
Import GoStd gostrings mock notions.

Lemma index_byte_app_none a b c :
  index_byte a c = None -> index_byte b c = None -> index_byte (a +:+ b) c = None.
Proof. intros Ha Hb. rewrite index_byte_app_miss by done. by rewrite Hb. Qed.

Lemma pairText_plain e : plain e ->
  index_byte (pairText e) "," = None /\
  0 < IndexByte (pairText e) "=" /\
  (forall srv, store srv (pairText e) = <[e.1 := e.2]> srv).
Proof.
  destruct e as [k v]. intros (Hk & Hkc & Hke & Htrim & Hvc). cbn [fst snd] in *.
  unfold pairText. cbn [fst snd]. rewrite app_cons_s, app_nil_s.
  assert (Hidx : IndexByte (k +:+ String "=" v) "=" = Z.of_nat (String.length k))
    by (unfold IndexByte; by rewrite index_byte_here).
  split; [apply index_byte_app_none; [done | cbn; by rewrite Hvc]|]. split.
  - rewrite Hidx. destruct k; [done | cbn; lia].
  - intros srv. unfold store. rewrite Hidx.
    rewrite Nat2Z.id, take_app_length, Htrim.
    replace (Z.to_nat (Z.of_nat (String.length k) + 1))
      with (String.length (k +:+ "=")) by (rewrite length_app_s; cbn; lia).
    replace (k +:+ String "=" v) with ((k +:+ "=") +:+ v)
      by (by rewrite app_assoc_s).
    by rewrite drop_app_length.
Qed.

Lemma writeAll_Join order :
  order <> [] ->
  writeAll order = Join (pairText <$> order) "," +:+ ",".
Proof.
  induction order as [|e order IH]; [done|]. intros _.
  destruct order as [|e' order].
  - cbn. unfold entryText, pairText. by rewrite app_empty_s, !app_assoc_s.
  - change (writeAll (e :: e' :: order))
      with (entryText e +:+ writeAll (e' :: order)).
    rewrite IH by done.
    change (pairText <$> e :: e' :: order)
      with (pairText e :: pairText e' :: (pairText <$> order)).
    change (pairText <$> e' :: order)
      with (pairText e' :: (pairText <$> order)).
    rewrite (Join_cons (pairText e)). unfold entryText, pairText.
    by rewrite !app_assoc_s.
Qed.

Lemma truncateLast_app a c : truncateLast (a +:+ String c "") = a.
Proof.
  unfold truncateLast. rewrite length_app_s. cbn [String.length].
  replace (String.length a + 1 - 1)%nat with (String.length a) by lia.
  apply take_app_length.
Qed.

Lemma String_Join order :
  order <> [] -> String_ order = Join (pairText <$> order) ",".
Proof.
  intros Hne. unfold String_. destruct order as [|e order]; [done|].
  rewrite writeAll_Join by done. apply truncateLast_app.
Qed.

Lemma foldl_store_plain order : forall srv,
  Forall plain order ->
  foldl store srv (pairText <$> order)
  = foldl (fun m e => <[e.1 := e.2]> m) srv order.
Proof.
  induction order as [|e order IH]; intros srv Hall; [done|].
  inversion Hall as [|? ? He Hr]; subst. cbn [fmap list_fmap foldl].
  destruct (pairText_plain e He) as (_ & _ & ->). by apply IH.
Qed.

Lemma foldl_insert_list_to_map (order : list (string * string)) : forall srv,
  NoDup order.*1 ->
  foldl (fun m e => <[e.1 := e.2]> m) srv order
  = (list_to_map order : gmap string string) ∪ srv.
Proof.
  induction order as [|[k v] order IH]; intros srv Hnd.
  - cbn. by rewrite (left_id ∅ (∪)).
  - cbn in *. apply NoDup_cons in Hnd as [Hk Hnd]. rewrite IH by done.
    rewrite <- insert_union_l. symmetry. apply insert_union_r.
    by apply not_elem_of_list_to_map_1.
Qed.

(** X3. [Set] is not atomic: the pairs (in ASCII) before the first pair
    without an equals sign past its first byte are stored, although the
    call fails with ErrInvalidValue; the pairs after it are not read. *)
Theorem servers_set_stops srv good bad others :
  Forall (fun pr => index_byte pr "," = None) (good ++ bad :: others) ->
  (2 <= length (good ++ bad :: others))%nat ->
  head (good ++ bad :: others) <> Some "" ->
  Forall (fun pr => isASCII pr = true) good ->
  Forall (fun pr => 0 < IndexByte pr "=") good ->
  IndexByte bad "=" <= 0 ->
  Set_ srv (Join (good ++ bad :: others) ",")
  = (foldl store srv good, Some ErrInvalidValue).
Proof.
  intros Hcomma Hlen Hhead _ Hgood Hbad.
  rewrite Set_Join by done. by apply setPairs_stops.
Qed.

(** X1. The text of [String] is read back by [Set] into the same map, when the
    map has two entries or more, its keys are ASCII and its entries are
    plain. *)
Theorem servers_roundtrip (srv : gmap string string) order :
  order ≡ₚ map_to_list srv ->
  (2 <= length order)%nat ->
  Forall (fun e => isASCII e.1 = true) order ->
  Forall plain order ->
  Set_ ∅ (String_ order) = (srv, None).
Proof.
  intros Hperm Hlen _ Hplain.
  assert (Hne : order <> []) by (intros ->; cbn in Hlen; lia).
  rewrite String_Join by done.
  rewrite Set_Join.
  - rewrite setPairs_all.
    + rewrite foldl_store_plain by done.
      rewrite foldl_insert_list_to_map.
      * rewrite (right_id ∅ (∪)). f_equal.
        rewrite (list_to_map_proper order (map_to_list srv)); [|
          rewrite Hperm; apply NoDup_fst_map_to_list | done].
        apply list_to_map_to_list.
      * rewrite Hperm. apply NoDup_fst_map_to_list.
    + apply Forall_fmap. eapply Forall_impl; [exact Hplain|].
      intros e He. by destruct (pairText_plain e He) as (_ & ? & _).
  - apply Forall_fmap. eapply Forall_impl; [exact Hplain|].
    intros e He. by destruct (pairText_plain e He) as (? & _ & _).
  - by rewrite length_fmap.
  - destruct order as [|e order]; [done|]. cbn. inversion Hplain as [|? ? He _]; subst.
    destruct (pairText_plain e He) as (_ & Hpos & _).
    intros [= Heq]. rewrite Heq in Hpos. by vm_compute in Hpos.
Qed.

(** X2. A map with one entry is printed without a comma, and [Set] refuses a
    text without a comma: the text of [String] is not read back. *)
Theorem servers_single_refused srv (e : string * string) :
  index_byte e.1 "," = None ->
  index_byte e.2 "," = None ->
  Set_ srv (String_ [e]) = (srv, Some ErrInvalidFormat).
Proof.
  intros Hk Hv. rewrite String_Join by done. cbn [fmap list_fmap Join].
  unfold Set_, IndexByte, pairText.
  rewrite index_byte_app_none; [done|done|].
  rewrite app_cons_s, app_nil_s. cbn. by rewrite Hv.
Qed.

End Servers2.

(** ** Skipping an element *)

Section TokenFacts.
Import GoStd token.

Lemma findEndLoop_inert content : forall start level p,
  Forall (inert (SName start)) content ->
  findEndLoop (content ++ p) start level = findEndLoop p start level.
Proof.
  induction content as [|i content IH]; intros start level p Hall; [done|].
  inversion Hall as [|? ? Hi Hr]; subst. cbn [app findEndLoop].
  destruct i as [[elem|elem|]|e]; cbn in Hi; try done.
  - apply eqb_string_false in Hi. rewrite Hi. by apply IH.
  - by apply IH.
Qed.

Lemma findEndLoop_below p : forall start level,
  level < 0 ->
  Forall (lowering (SName start)) p ->
  findEndLoop p start level
  = (Some (NewError (SStart start) (SEnd start)), []).
Proof.
  induction p as [|i p IH]; intros start level Hneg Hall; [done|].
  inversion Hall as [|? ? Hi Hr]; subst. cbn [findEndLoop].
  destruct i as [[elem|elem|]|e]; cbn in Hi; try done.
  - apply eqb_string_false in Hi. rewrite Hi. by apply IH.
  - replace (level =? 0) with false by (symmetry; apply Z.eqb_neq; lia).
    cbn. apply IH; [lia | done].
  - by apply IH.
Qed.

(** X4. Skipping an element whose content has no element of its own: the
    search ends at the first end element with the name of [start], and the
    parser is left just after it. *)
Theorem findEndElement_flat start content e rest :
  Forall (inert (SName start)) content ->
  EName e = SName start ->
  findEndElement (content ++ Tok (TEnd e) :: rest) start = (None, rest).
Proof.
  intros Hall Hname. unfold findEndElement.
  rewrite findEndLoop_inert by done. cbn. rewrite Hname.
  by rewrite String.eqb_refl.
Qed.

(** X5. Skipping an element with a child: the end of any element met before
    the end of [start] lowers the counter below zero, whatever its name;
    unless a later start element named like [start] raises it again, the
    end of [start] is passed by, the parser is read to its end and the call
    fails with ErrInvalidXML at the range of [start]. *)
Theorem findEndElement_child start content e more :
  Forall (inert (SName start)) content ->
  EName e <> SName start ->
  Forall (lowering (SName start)) more ->
  findEndElement (content ++ Tok (TEnd e) :: more) start
  = (Some (NewError (SStart start) (SEnd start)), []).
Proof.
  intros Hall Hname Hmore. unfold findEndElement.
  rewrite findEndLoop_inert by done. cbn [findEndLoop].
  apply eqb_string_false in Hname. rewrite Hname. cbn.
  by apply findEndLoop_below.
Qed.

End TokenFacts.

(** ** The PHP heredoc blocker *)

Section PhpFacts.
Import GoStd model php.

Lemma drop_drop_s (s : string) : forall a n, drop (a + n) s = drop n (drop a s).
Proof.
  induction s as [|c s IH]; intros a n.
  - destruct a, n; done.
  - destruct a as [|a]; [done|]. cbn. apply IH.
Qed.

Lemma rest_advance n l : rest (advance n l) = drop n (rest l).
Proof. unfold rest, advance. cbn. apply drop_drop_s. Qed.

Lemma advance_advance a n l : advance n (advance a l) = advance (a + n) l.
Proof. unfold advance. cbn. f_equal. lia. Qed.

(** X6. When BeginFunc answers false, it has put the lexer back where it was
    and has not touched the blocker. *)
Theorem BeginFunc_false_restores b l b' l' :
  BeginFunc b l = Ret (false, b', l') -> b' = b /\ l' = l.
Proof.
  unfold BeginFunc, match_.
  destruct (String.prefix "<<<" (rest l)); [|by intros [= <- <-]].
  cbv zeta. destruct (len (line (advance (String.length "<<<") l)) =? 0).
  - intros [= <- <-]. split; [done|]. destruct l as [d bs p]. cbn.
    f_equal. lia.
  - repeat case_match_goal; done.
Qed.

Lemma until_nl_app_quote r :
  until_nl r = "" -> until_nl (String "'" r) = "'".
Proof. intros Hr. cbn. by rewrite Hr. Qed.

(** X7. A heredoc opener made of three angle brackets and one quote alone on
    its line makes BeginFunc panic: the token is one byte long, begins and
    ends with a quote, and is sliced from 1 to 0. *)
Theorem BeginFunc_lone_quote_panics b l r :
  rest l = "<<<'" +:+ r ->
  until_nl r = "" ->
  BeginFunc b l = Panic.
Proof.
  intros Hrest Hr. unfold BeginFunc, match_. rewrite Hrest.
  change (String.prefix "<<<" ("<<<'" +:+ r)) with true. cbv iota zeta.
  unfold line. rewrite rest_advance, Hrest.
  change (drop (String.length "<<<") ("<<<'" +:+ r)) with (String "'" r).
  rewrite until_nl_app_quote by done. reflexivity.
Qed.

Lemma endLoop_found n : forall k b l,
  (n <= k)%nat ->
  (lpos l + n < String.length (ldata l))%nat ->
  (forall i, (i < n)%nat -> endsAt b (ldata l) (lpos l + i) = false) ->
  endsAt b (ldata l) (lpos l + n) = true ->
  endLoop k b l
  = (true, advance (n + endLen b (ldata l) (lpos l + n)) l).
Proof.
  induction n as [|n IH]; intros k b l Hk Hin Hbefore Hat.
  - rewrite Nat.add_0_r in *. unfold endsAt, endLen in *.
    destruct k; cbn [endLoop]; unfold AtEOF, match_, rest;
      rewrite (proj2 (Nat.leb_gt _ _) Hin);
      destruct (String.prefix (token1 b) (drop (lpos l) (ldata l)));
      cbn in Hat; try rewrite Hat; done.
  - destruct k as [|k]; [lia|].
    pose proof (Hbefore 0%nat ltac:(lia)) as H0.
    rewrite Nat.add_0_r in H0. unfold endsAt in H0.
    apply orb_false_iff in H0 as [H1 H2].
    assert (Hlt : (lpos l < String.length (ldata l))%nat) by lia.
    cbn [endLoop]. unfold AtEOF, match_, rest.
    rewrite (proj2 (Nat.leb_gt _ _) Hlt), H1, H2.
    rewrite (IH k b (advance 1 l)).
    + rewrite advance_advance. cbn [advance ldata lpos].
      replace (lpos l + 1 + n)%nat with (lpos l + S n)%nat by lia. done.
    + lia.
    + cbn. lia.
    + intros i Hi. cbn. replace (lpos l + 1 + i)%nat with (lpos l + S i)%nat by lia.
      apply Hbefore. lia.
    + cbn. by replace (lpos l + 1 + n)%nat with (lpos l + S n)%nat by lia.
Qed.

(** X9. EndFunc finds the first terminator at or after the position of the
    lexer and leaves the lexer just after it. *)
Theorem EndFunc_first_terminator b l n :
  (lpos l + n < String.length (ldata l))%nat ->
  (forall i, (i < n)%nat -> endsAt b (ldata l) (lpos l + i) = false) ->
  endsAt b (ldata l) (lpos l + n) = true ->
  EndFunc b l = (true, advance (n + endLen b (ldata l) (lpos l + n)) l).
Proof.
  intros Hin Hbefore Hat. unfold EndFunc. apply endLoop_found; [lia|done..].
Qed.

Lemma endLoop_missing k : forall b l,
  (String.length (ldata l) - lpos l <= k)%nat ->
  (forall i, (lpos l + i < String.length (ldata l))%nat ->
             endsAt b (ldata l) (lpos l + i) = false) ->
  exists l', endLoop k b l = (false, l') /\ AtEOF l' = true /\
             ldata l' = ldata l.
Proof.
  induction k as [|k IH]; intros b l Hk Hnone.
  - assert (Hle : (String.length (ldata l) <= lpos l)%nat) by lia.
    exists l. cbn [endLoop]. unfold AtEOF.
    by rewrite (proj2 (Nat.leb_le _ _) Hle).
  - cbn [endLoop]. destruct (AtEOF l) eqn:Heof; [by exists l|].
    unfold AtEOF in Heof. apply Nat.leb_gt in Heof.
    pose proof (Hnone 0%nat ltac:(lia)) as H0.
    rewrite Nat.add_0_r in H0. unfold endsAt in H0.
    apply orb_false_iff in H0 as [H1 H2].
    unfold match_, rest. rewrite H1, H2.
    destruct (IH b (advance 1 l)) as (l' & Hrun & Heof' & Hdata).
    + cbn. lia.
    + intros i Hi. cbn in *.
      replace (lpos l + 1 + i)%nat with (lpos l + S i)%nat by lia.
      apply Hnone. lia.
    + exists l'. by rewrite Hrun.
Qed.

(** X10. Without a terminator in the rest of the data, EndFunc answers false
    with the lexer at the end of the data. *)
Theorem EndFunc_unterminated b l :
  (forall i, (lpos l + i < String.length (ldata l))%nat ->
             endsAt b (ldata l) (lpos l + i) = false) ->
  exists l', EndFunc b l = (false, l') /\ AtEOF l' = true /\
             ldata l' = ldata l.
Proof. intros Hnone. unfold EndFunc. by apply endLoop_missing. Qed.

End PhpFacts.

Section PhpFacts2.
Import GoStd model php.


Lemma until_nl_app t r :
  index_byte t "010" = None -> until_nl r = "" -> until_nl (t +:+ r) = t.
Proof.
  intros Ht Hr. induction t as [|c t IH]; [by rewrite app_nil_s|].
  rewrite app_cons_s. cbn in *. unfold is_nl.
  destruct (Ascii.eqb c "010"); [done|].
  destruct (index_byte t "010"); [done|]. by rewrite IH.
Qed.

Lemma get_last t c : String.get (String.length t) (t +:+ String c "") = Some c.
Proof.
  induction t as [|x t IH]; [done|]. rewrite app_cons_s. cbn. exact IH.
Qed.

(** X8. A nowdoc opener: the identifier between quotes, alone on its line.
    BeginFunc answers true, leaves the lexer after the three angle brackets,
    marks the blocker as nowdoc and builds the two terminators from the
    identifier without its quotes. *)
Theorem BeginFunc_nowdoc b l t r :
  rest l = "<<<'" +:+ t +:+ "'" +:+ r ->
  index_byte t "010" = None ->
  until_nl r = "" ->
  BeginFunc b l
  = Ret (true,
         mkPhpDocBlock (nl +:+ t +:+ nl) (nl +:+ t +:+ ";" +:+ nl) phpNowdoc,
         advance 3 l).
Proof.
  intros Hrest Ht Hr. unfold BeginFunc, match_. rewrite Hrest.
  change (String.prefix "<<<" ("<<<'" +:+ t +:+ "'" +:+ r)) with true.
  cbv iota zeta. unfold line. rewrite rest_advance, Hrest.
  change (drop (String.length "<<<") ("<<<'" +:+ t +:+ "'" +:+ r))
    with (String "'" (t +:+ String "'" r)).
  assert (Htok : until_nl (String "'" (t +:+ String "'" r))
                 = String "'" (t +:+ "'")).
  { cbn. f_equal.
    replace (t +:+ String "'" r) with ((t +:+ "'") +:+ r).
    - apply until_nl_app; [|done].
      clear -Ht. induction t as [|c t IH]; [done|]. rewrite app_cons_s.
      cbn in *. destruct (Ascii.eqb c "010"); [done|].
      destruct (index_byte t "010"); [done|]. by rewrite IH.
    - clear. induction t as [|c t IH]; [done|]. rewrite !app_cons_s. by rewrite IH. }
  rewrite Htok. unfold len, byteAt.
  cbn [String.length String.get]. rewrite length_app_s. cbn [String.length].
  replace (S (String.length t + 1) - 1)%nat with (S (String.length t)) by lia.
  cbn [String.get].
  replace (String.get (String.length t) (t +:+ "'")) with (Some "'"%char)
    by (symmetry; apply get_last).
  cbn -[take drop].
  replace (String.length t + 1 - 1)%nat with (String.length t) by lia.
  change (drop 1 (String "'" (t +:+ "'"))) with (t +:+ "'").
  rewrite take_app_length.
  replace (Z.of_nat (S (String.length t + 1)) =? 0) with false
    by (symmetry; apply Z.eqb_neq; lia).
  reflexivity.
Qed.

End PhpFacts2.

(** ** Sanitize and the table of languages *)

Section SanitizeFacts.
Import GoStd sanitize.

Lemma normExts_dotted exts : Forall dotted (normExts exts).
Proof.
  induction exts as [|[|c ext] r IH]; cbn; [done..|].
  constructor; [|done].
  destruct (Ascii.eqb c ".") eqn:E; cbn; [by apply Ascii.eqb_eq in E | done].
Qed.

Lemma normExts_fixed exts : Forall dotted exts -> normExts exts = exts.
Proof.
  induction 1 as [|[|c ext] r Hd _ IH]; cbn in *; [done..|].
  subst c. cbn. by rewrite IH.
Qed.

(** X11. The extensions after the loop of Sanitize all begin with a dot, a list
    that is already so is kept as it is (the loop is idempotent), and the
    result is empty exactly when every entry was empty. *)
Theorem normExts_normal exts :
  Forall dotted (normExts exts) /\
  normExts (normExts exts) = normExts exts /\
  (Forall dotted exts -> normExts exts = exts) /\
  (normExts exts = [] <-> Forall (fun e => e = "") exts).
Proof.
  split; [apply normExts_dotted|].
  split; [apply normExts_fixed, normExts_dotted|].
  split; [apply normExts_fixed|].
  induction exts as [|[|c ext] r IH]; cbn.
  - done.
  - rewrite IH. split; [by constructor | by inversion 1].
  - split; [done | by inversion 1].
Qed.

Context {Blocker : Type}.
Variable FileExists : string -> bool.
Variable langGet : string -> option (Language Blocker).
Variable recursivePath : Input Blocker -> list string + string.
Variable ianaEncoding : string -> string + string.

Local Abbreviation Sanitize :=
  (sanitize.Sanitize FileExists langGet recursivePath ianaEncoding).

(** X12. What holds of an Input that Sanitize accepts. *)
Theorem Sanitize_accepts o r :
  Sanitize (Some o) = (r, None) ->
  exists language o',
    r = Some o' /\
    Dir o <> "" /\ FileExists (Dir o) = true /\ Lang o <> "" /\
    langGet (Lang o) = Some language /\
    Lang o' = Lang o /\ Dir o' = Dir o /\ Recursive o' = Recursive o /\
    Encoding o' = Encoding o /\
    blocks o' = LBlocks language /\
    Exts o' = (match Exts o with [] => LExts language | _ => normExts (Exts o) end) /\
    paths o' <> [] /\
    recursivePath
      (mkInput (Lang o) (Dir o) (Exts o') (Recursive o) (Encoding o)
               (LBlocks language) (paths o) (encoding o)) = inl (paths o') /\
    (if String.eqb (Encoding o) "" then encoding o' = encoding o
     else exists enc, ianaEncoding (Encoding o) = inl enc /\
                      encoding o' = Some enc).
Proof.
  unfold sanitize.Sanitize.
  destruct (len (Dir o) =? 0) eqn:Hdir; [done|].
  destruct (FileExists (Dir o)) eqn:Hex; [|done]. cbn [negb].
  destruct (len (Lang o) =? 0) eqn:Hlang; [done|].
  destruct (langGet (Lang o)) as [language|] eqn:Hget; [|done].
  cbv zeta. cbn [Lang Dir Exts Recursive Encoding blocks paths encoding].
  set (exts := if 0 <? Z.of_nat (length (Exts o)) then normExts (Exts o)
               else LExts language).
  assert (Hexts : exts = match Exts o with [] => LExts language
                                      | _ => normExts (Exts o) end)
    by (subst exts; by destruct (Exts o)).
  destruct (recursivePath _) as [ps|err] eqn:Hwalk; [|done].
  destruct (Z.of_nat (length ps) =? 0) eqn:Hps; [done|].
  assert (Hd : Dir o <> "") by (intros Heq; by rewrite Heq in Hdir).
  assert (Hl : Lang o <> "") by (intros Heq; by rewrite Heq in Hlang).
  assert (Hne : ps <> []) by (intros ->; done).
  destruct (String.eqb (Encoding o) "") eqn:Henc; cbn [negb].
  - intros [= <-]. exists language. eexists. split; [done|]. cbn.
    rewrite <- Hexts. repeat split; try done.
  - destruct (ianaEncoding (Encoding o)) as [enc|err] eqn:Hiana; [|done].
    intros [= <-]. exists language. eexists. split; [done|]. cbn.
    rewrite <- Hexts. repeat split; try done. by exists enc.
Qed.

End SanitizeFacts.

Section TableFacts.
Import GoStd gostrings apidocmain.

Lemma len_repeatN n : len (repeatN " " n) = Z.of_nat n.
Proof.
  unfold len. induction n as [|n IH]; [done|].
  change (repeatN " " (S n)) with (String " " (repeatN " " n)).
  cbn [String.length]. lia.
Qed.

Lemma length_repeatN n : String.length (repeatN " " n) = n.
Proof. pose proof (len_repeatN n) as Hl. unfold len in Hl. lia. Qed.

Lemma maxima_bounds langs : forall md mn,
  md <= (maxima langs md mn).1 /\ mn <= (maxima langs md mn).2 /\
  Forall (fun l => len (DisplayName l) <= (maxima langs md mn).1 /\
                   len (Name l) <= (maxima langs md mn).2) langs.
Proof.
  induction langs as [|l r IH]; intros md mn; cbn [maxima]; [by cbn|].
  cbv zeta.
  set (md' := if len (DisplayName l) >? md then len (DisplayName l) else md).
  set (mn' := if len (Name l) >? mn then len (Name l) else mn).
  assert (Hmd : md <= md' /\ len (DisplayName l) <= md')
    by (subst md'; destruct (Z.gtb_spec (len (DisplayName l)) md); lia).
  assert (Hmn : mn <= mn' /\ len (Name l) <= mn')
    by (subst mn'; destruct (Z.gtb_spec (len (Name l)) mn); lia).
  destruct (IH md' mn') as (H1 & H2 & H3).
  split; [lia|]. split; [lia|]. constructor; [lia | done].
Qed.

Variable Fprintln : nat -> list string -> bool.

Lemma rows_aligned langs : forall k wd wn,
  Forall (fun l => len (DisplayName l) + 3 <= wd /\ len (Name l) + 3 <= wn) langs ->
  exists ls,
    Forall (aligned wn wd) ls /\
    Forall2 (fun l row => exists n d,
               row = [Name l; n; DisplayName l; d; Join (Exts l) ", "]) langs ls /\
    ((forall j row, ls !! j = Some row -> Fprintln (k + j) row = true) ->
     rows Fprintln k langs wd wn = (ls, Ret tt)) /\
    (forall j row,
       ls !! j = Some row -> Fprintln (k + j) row = false ->
       (forall i r, (i < j)%nat -> ls !! i = Some r -> Fprintln (k + i) r = true) ->
       rows Fprintln k langs wd wn = (firstn j ls, Panic)).
Proof.
  induction langs as [|l r IH]; intros k wd wn Hall.
  - exists []. split; [constructor|]. split; [constructor|]. split; [done|].
    intros j row Hj. by rewrite lookup_nil in Hj.
  - inversion Hall as [|? ? [Hd Hn] Hr]; subst.
    destruct (IH (S k) wd wn Hr) as (ls & Hal & Hf & Hok & Hfail).
    set (v := [Name l; repeatN " " (Z.to_nat (wn - len (Name l)));
               DisplayName l; repeatN " " (Z.to_nat (wd - len (DisplayName l)));
               Join (Exts l) ", "]).
    assert (Hrows : rows Fprintln k (l :: r) wd wn =
                    if Fprintln k v
                    then let '(ls, st) := rows Fprintln (S k) r wd wn in (v :: ls, st)
                    else ([], Panic)).
    { cbn [rows]. unfold Repeat, pLine.
      replace (wd - len (DisplayName l) <? 0) with false
        by (symmetry; apply Z.ltb_ge; lia).
      replace (wn - len (Name l) <? 0) with false
        by (symmetry; apply Z.ltb_ge; lia).
      fold v. by destruct (Fprintln k v). }
    exists (v :: ls). split; [|split; [|split]].
    + constructor; [|done]. unfold aligned, v.
      rewrite !len_repeatN, !length_repeatN. repeat split; try done; lia.
    + constructor; [|done]. by eexists _, _.
    + intros Hall'. rewrite Hrows.
      pose proof (Hall' 0%nat v eq_refl) as H0.
      rewrite Nat.add_0_r in H0. rewrite H0, Hok; [done|].
      intros j row Hj. specialize (Hall' (S j) row Hj).
      by replace (S k + j)%nat with (k + S j)%nat by lia.
    + intros j row Hj Hbad Hbefore. rewrite Hrows. destruct j as [|j].
      * injection Hj as <-. rewrite Nat.add_0_r in Hbad. by rewrite Hbad.
      * pose proof (Hbefore 0%nat v ltac:(lia) eq_refl) as H0.
        rewrite Nat.add_0_r in H0. rewrite H0.
        rewrite (Hfail j row); [done | done | |].
        -- by replace (S k + j)%nat with (k + S j)%nat by lia.
        -- intros i r' Hi Hr'.
           replace (S k + i)%nat with (k + S i)%nat by lia.
           apply Hbefore; [lia | done].
Qed.

(** X13. The table of languages has one line per language in the order of
    the list, and its columns are aligned: on every line the name with its
    padding has the same width, the display name with its padding has the
    same width, and each padding is at least three blanks (strings.Repeat
    never gets a negative count).  The call returns with all the lines
    written when every write succeeds; at the first failed write it panics,
    the lines before that one written. *)
Theorem printLanguages_aligned langs :
  exists ls wn wd,
    Forall (aligned wn wd) ls /\
    Forall2 (fun l row => exists n d,
               row = [Name l; n; DisplayName l; d; Join (Exts l) ", "]) langs ls /\
    ((forall j row, ls !! j = Some row -> Fprintln j row = true) ->
     printLanguages Fprintln langs = (ls, Ret tt)) /\
    (forall j row,
       ls !! j = Some row -> Fprintln j row = false ->
       (forall i r, (i < j)%nat -> ls !! i = Some r -> Fprintln i r = true) ->
       printLanguages Fprintln langs = (firstn j ls, Panic)).
Proof.
  unfold printLanguages.
  destruct (maxima langs 0 0) as [md mn] eqn:Hmax.
  pose proof (maxima_bounds langs 0 0) as (_ & _ & Hall). rewrite Hmax in Hall.
  cbn [fst snd] in Hall.
  destruct (rows_aligned langs 0 (md + 3) (mn + 3)) as (ls & Hal & Hf & Hok & Hfail).
  { eapply Forall_impl; [exact Hall|]. intros l [? ?]. lia. }
  by exists ls, (mn + 3), (md + 3).
Qed.

End TableFacts.

(** ** The block scanner, the tag parser and the builder again *)

Section ScannerMore.
Import GoStd build notions.
Context {Lexer Blocker : Type} `{LexerAPI Lexer Blocker}.
Variable ReadAll : string -> string -> string + string.


Lemma orderly_cons uri b evs :
  Raw b <> "" -> File b = uri -> orderly uri evs -> orderly uri (EvBlock b :: evs).
Proof.
  intros Hraw Hfile (bs & tail & -> & Hall & Htail).
  exists (b :: bs), tail. repeat split; [by constructor | done].
Qed.

Lemma parseLoop_orderly fuel uri : forall (l : Lexer) block pos,
  orderly uri (parseLoop fuel uri l block pos).1.
Proof.
  induction fuel as [|fuel IH]; intros l block pos.
  - by exists [], []; repeat split; [constructor | left].
  - cbn [parseLoop]. destruct (AtEOF l).
    { by exists [], []; repeat split; [constructor | left]. }
    destruct (match block with None => Block_ l | Some b => (Some (b, pos), l) end)
      as [[[b pos1]|] l1].
    2:{ by exists [], []; repeat split; [constructor | left]. }
    destruct (EndFunc b l1) as [[[raw data] ok] l2].
    destruct ok; cbn [negb].
    2:{ exists [], [EvError (NewLocaleError uri "" (Line pos1) ErrNotFoundEndFlag)].
        repeat split; [constructor | right; by eexists]. }
    destruct (len raw =? 0) eqn:Hraw; [apply IH|].
    specialize (IH l2 None pos1).
    destruct (parseLoop fuel uri l2 None pos1) as [evs fin]. cbn [fst] in *.
    apply orderly_cons; [|done|done]. cbn. intros ->. done.
Qed.

(** X14. Whatever the fuel, a call of parseFile sends blocks and then at most
    one diagnostic, after which it sends nothing; every block it sends has
    a raw text that is not empty and carries the name of the file. *)
Theorem parseFile_orderly fuel o uri :
  orderly uri (parseFile ReadAll fuel o uri).1.
Proof.
  unfold parseFile.
  destruct (ReadAll uri (encoding o)) as [data|err].
  - destruct (NewLexer data (blocks o)) as [l|err]; [apply parseLoop_orderly|].
    exists [], [EvError (WithError uri "" 0 err)].
    repeat split; [constructor | right; by eexists].
  - exists [], [EvError (WithError uri "" 0 err)].
    repeat split; [constructor | right; by eexists].
Qed.

End ScannerMore.

Section ParserMore.
Import GoStd openapi parser types notions.
Variable split : string -> nat -> list string.
Variable SemVerValid : string -> bool.
Local Abbreviation apiTag := (parser.apiTag split SemVerValid).
Local Abbreviation api_parseAPI := (parser.api_parseAPI split SemVerValid).
Local Abbreviation parserLoop := (parser.parserLoop split SemVerValid).
Local Abbreviation parser_parseAPI := (parser.parser_parseAPI split SemVerValid).

Lemma apiTag_error_key fuel obj t o err :
  apiTag fuel obj t = Ret (o, Some err) -> key (Message err) <> ErrInvalidTag.
Proof.
  unfold parser.apiTag. cbv zeta.
  repeat (case_eqb || case_match_goal); intros [= <- <-]; done.
Qed.

Lemma api_parseAPI_error_key fuel l : forall obj o l' err,
  api_parseAPI fuel obj l = Ret (o, l', Some err) ->
  key (Message err) <> ErrInvalidTag.
Proof.
  induction l as [|t l IH]; intros obj o l' err; [done|].
  rewrite api_parseAPI_cons.
  destruct (apiTag fuel obj t) as [[o1 [e|]]| |] eqn:Ht; try done.
  - intros [= <- <- <-]. by eapply apiTag_error_key.
  - apply IH.
Qed.

(** X15. In a block that opens with @api (tag names in ASCII) every
    later tag is read by api.parseAPI, which knows neither @apiRequest nor
    @apiResponse: the API never gets a request body, no tag is ever
    reported as invalid, and a block parsed without error is read to its
    end, its route being the three fields of the @api tag: the path and the
    summary as written, the method in upper case, that is the method itself
    when the first field spells one of the eight in any mix of small and
    capital letters. *)
Theorem api_block_never_requests fuel tapi l o l' e :
  ToLower (name tapi) = "@api" ->
  asciiNames l ->
  parser_parseAPI fuel (tapi :: l) = Ret (o, l', e) ->
  request o = None /\
  (forall err, e = Some err -> key (Message err) <> ErrInvalidTag) /\
  (e = None ->
   l' = [] /\
   exists d0 d1 d2, split (data tapi) 3 = [d0; d1; d2] /\
     (isASCII d0 = true -> method o = ToUpper d0) /\
     (forall M, M ∈ methods -> spells M d0 = true -> method o = M) /\
     path o = d1 /\ summary o = d2).
Proof.
  intros Hn _. unfold parser.parser_parseAPI.
  destruct fuel as [|fuel]; [done|]. rewrite parserLoop_api by done.
  destruct (split (data tapi) 3) as [|d0 [|d1 [|d2 [|d3 r]]]] eqn:Hsplit;
    try (intros [= <- <- <-]; repeat split; try done; by intros err [= <-]).
  destruct (api_parseAPI (S fuel) (set_route (ToUpper d0) d1 d2 api0) l)
    as [[[o2 l2] [err|]]| |] eqn:Hrun; try done.
  - intros [= <- <- <-].
    destruct (api_parseAPI_frame split SemVerValid _ _ _ _ _ _ Hrun)
      as (_ & _ & _ & Hreq).
    repeat split; try done.
    intros err' [= <-]. by eapply api_parseAPI_error_key.
  - destruct (api_parseAPI_frame split SemVerValid _ _ _ _ _ _ Hrun)
      as (Hm & Hp & Hs & Hreq).
    rewrite (api_parseAPI_ok_nil split SemVerValid _ _ _ _ _ Hrun).
    destruct fuel as [|fuel]; [done|]. intros [= <- <- <-].
    split; [done|]. split; [done|]. intros _. split; [done|].
    exists d0, d1, d2. repeat split; try done.
    intros M HM Hsp. rewrite Hm. cbn. by apply spells_method.
Qed.

(** X16. A block whose first tag, after any @apiResponse tags, has an ASCII
    name that is not @api, @apiRequest or @apiResponse fails at that tag
    with ErrInvalidTag, which carries the name as written; nothing after
    the tag is read. *)
Theorem first_tag_invalid fuel skipped t l :
  Forall (fun u => ToLower (name u) = "@apiresponse") skipped ->
  isASCII (name t) = true ->
  ToLower (name t) <> "@api" ->
  ToLower (name t) <> "@apirequest" ->
  ToLower (name t) <> "@apiresponse" ->
  (length skipped < fuel)%nat ->
  parser_parseAPI fuel (skipped ++ t :: l)
  = Ret (api0, l, Some (syntaxError t (Sprintf ErrInvalidTag (name t)))).
Proof.
  intros Hskip _ Ha Hq Hs. unfold parser.parser_parseAPI. generalize api0.
  revert fuel. induction Hskip as [|u skipped Hu _ IH]; intros fuel obj Hfuel.
  - destruct fuel as [|fuel]; [cbn in Hfuel; lia|]. cbn [app parser.parserLoop].
    cbv zeta. apply eqb_string_false in Ha, Hq, Hs. by rewrite Ha, Hq, Hs.
  - destruct fuel as [|fuel]; [cbn in Hfuel; lia|]. cbn [app parser.parserLoop].
    cbv zeta. rewrite Hu. cbn. apply IH. cbn in Hfuel. lia.
Qed.

(** X17. The @apitags case never splits its data: without a comma past the
    first byte the whole data becomes the one tag of the API, as it is;
    with one, the call does not return, whatever the fuel. *)
Theorem apiTags_whole_or_never fuel obj t :
  ToLower (name t) = "@apitags" ->
  tags obj = [] ->
  (IndexByte (data t) "," <= 0 ->
   apiTag (S fuel) obj t = Ret (set_tags [data t] obj, None)) /\
  (0 < IndexByte (data t) "," -> forall r, apiTag fuel obj t <> Ret r).
Proof.
  intros Hn Htags. unfold parser.apiTag. cbv zeta. rewrite Hn, Htags.
  cbn [String.eqb Ascii.eqb Bool.eqb length Z.of_nat Z.ltb Z.compare].
  split.
  - intros Hi. by rewrite tagsLoop_done.
  - intros Hi r.
    destruct (tagsLoop fuel (data t) (data t) []) as [ts| |] eqn:Hl; try done.
    by apply tagsLoop_never in Hl.
Qed.

End ParserMore.

Section BuilderMore.
Import GoStd gostrings openapi types notions.

Lemma pathsOf_withPaths m : pathsOf (withPaths m) = m.
Proof. reflexivity. Qed.

Lemma itemOf_withPaths m p : itemOf (withPaths m) p = default PathItem0 (m !! p).
Proof. reflexivity. Qed.


Lemma parseAPI_step doc api m p s sl :
  SplitN (API_ api) " " 3 = [m; p; s] ->
  methodSlot (ToUpper m) = Some sl ->
  (parseAPI doc api).1
  = withPaths (<[p := stepItem api sl (itemOf doc p)]> (pathsOf doc)).
Proof.
  intros Hsplit Hm. rewrite (parseAPI_spec _ _ _ _ _ Hsplit). cbn zeta.
  rewrite Hm. unfold stepItem.
  destruct (slot_get sl (itemOf doc p)); cbn [fst]; [done|].
  by rewrite insert_insert_eq.
Qed.

Lemma slot_set_comm s s' o o' p :
  s <> s' -> slot_set s o (slot_set s' o' p) = slot_set s' o' (slot_set s o p).
Proof. by destruct s, s'. Qed.

Lemma stepItem_comm a b sa sb it :
  sa <> sb ->
  stepItem b sb (stepItem a sa it) = stepItem a sa (stepItem b sb it).
Proof.
  intros Hne. unfold stepItem.
  destruct (slot_get sa it) eqn:Ha, (slot_get sb it) eqn:Hb;
    rewrite ?Ha, ?Hb, ?slot_get_set_ne, ?Ha, ?Hb by done; try done.
  by apply slot_set_comm.
Qed.

(** X18. Two adds on different (path, method) pairs commute: the document does
    not depend on which API the builder receives first. *)
Theorem adds_commute doc a b ma pa sa mb pb sb sla slb :
  SplitN (API_ a) " " 3 = [ma; pa; sa] ->
  SplitN (API_ b) " " 3 = [mb; pb; sb] ->
  methodSlot (ToUpper ma) = Some sla ->
  methodSlot (ToUpper mb) = Some slb ->
  pa <> pb \/ sla <> slb ->
  (parseAPI (parseAPI doc a).1 b).1 = (parseAPI (parseAPI doc b).1 a).1.
Proof.
  intros Ha Hb Hma Hmb Hne.
  rewrite (parseAPI_step (parseAPI doc a).1 b _ _ _ _ Hb Hmb),
          (parseAPI_step (parseAPI doc b).1 a _ _ _ _ Ha Hma).
  rewrite (parseAPI_step doc a _ _ _ _ Ha Hma), (parseAPI_step doc b _ _ _ _ Hb Hmb).
  rewrite !pathsOf_withPaths, !itemOf_withPaths. f_equal.
  destruct (decide (pa = pb)) as [->|Hp].
  - destruct Hne as [|Hs]; [done|].
    rewrite !lookup_insert_eq. cbn [default from_option id].
    rewrite !insert_insert_eq. f_equal. by apply stepItem_comm.
  - rewrite !lookup_insert_ne by done.
    change (default PathItem0 (pathsOf doc !! pb)) with (itemOf doc pb).
    change (default PathItem0 (pathsOf doc !! pa)) with (itemOf doc pa).
    by apply insert_insert_ne.
Qed.

(** X19. An add never changes an operation of the document.  A failed add
    changes no (path, method) at all; a successful add fills exactly one
    pair, which was free, with the operation made from the API. *)
Theorem add_frame doc api :
  (forall e, (parseAPI doc api).2 = Some e ->
     forall p sl, opAt (parseAPI doc api).1 p sl = opAt doc p sl) /\
  ((parseAPI doc api).2 = None ->
     exists p sl,
       opAt doc p sl = None /\
       opAt (parseAPI doc api).1 p sl = Some (fill api Operation0) /\
       forall p' sl', (p' <> p \/ sl' <> sl) ->
         opAt (parseAPI doc api).1 p' sl' = opAt doc p' sl').
Proof.
  destruct (decide (length (SplitN (API_ api) " " 3) = 3%nat)) as [Hlen|Hlen].
  - destruct (SplitN (API_ api) " " 3) as [|m [|p0 [|s [|d r]]]] eqn:Hsplit;
      try done.
    rewrite (parseAPI_spec _ _ _ _ _ Hsplit). cbn zeta.
    destruct (methodSlot (ToUpper m)) as [sl0|]; cbn [fst snd].
    2:{ split; [|done]. intros e _ p sl. apply opAt_created. }
    destruct (slot_get sl0 (itemOf doc p0)) eqn:Hget; cbn [fst snd].
    { split; [|done]. intros e _ p sl. apply opAt_created. }
    split; [done|]. intros _. exists p0, sl0.
    split; [by rewrite opAt_itemOf|]. split.
    + rewrite opAt_installed. by rewrite decide_True.
    + intros p' sl' Hne. rewrite opAt_installed.
      rewrite decide_False; [done|]. intros [-> ->]. by destruct Hne.
  - rewrite parseAPI_short by done. cbn [fst snd]. split; [|done].
    intros e _ p sl. apply opAt_pathsOf.
Qed.

Lemma Count_drop_index s c m :
  index_byte s c = Some m -> Count s c = S (Count (drop (S m) s) c).
Proof.
  revert m. induction s as [|x s IH]; intros m; cbn; [done|].
  destruct (Ascii.eqb x c) eqn:E.
  - intros [= <-]. cbn. by destruct s.
  - destruct (index_byte s c) as [j|] eqn:Hj; [|done]. intros [= <-].
    cbn. by rewrite (IH j).
Qed.

Lemma Count_zero_index s c : Count s c = 0%nat -> index_byte s c = None.
Proof.
  induction s as [|x s IH]; cbn; [done|].
  destruct (Ascii.eqb x c); [done|]. intros Hc. by rewrite IH.
Qed.

Lemma length_splitLoop k : forall s c,
  length (splitLoop k s c) = S (Nat.min k (Count s c)).
Proof.
  induction k as [|k IH]; intros s c; [done|]. cbn [splitLoop].
  destruct (index_byte s c) as [m|] eqn:Hm.
  - cbn [length]. rewrite IH, (Count_drop_index _ _ _ Hm). cbn. lia.
  - destruct (Count s c) eqn:Hc; [done|].
    destruct (index_byte s c) eqn:Hi; [done|].
    clear -Hc Hi. exfalso. revert Hc Hi.
    induction s as [|x s IHs]; cbn; [done|].
    destruct (Ascii.eqb x c); [done|].
    destruct (index_byte s c); [done|]. intros Hc _. by apply IHs.
Qed.

(** X20. The add fails for want of arguments exactly when the text after @api
    has fewer than two spaces; then no path is created and the document
    keeps every PathItem it had. *)
Theorem missing_args_iff doc api :
  ((parseAPI doc api).2 = Some ErrMissingArgs <-> (Count (API_ api) " " < 2)%nat) /\
  ((Count (API_ api) " " < 2)%nat ->
   forall p, itemAt (parseAPI doc api).1 p = itemAt doc p).
Proof.
  pose proof (length_splitLoop 2 (API_ api) " ") as Hlen.
  change (splitLoop 2 (API_ api) " ") with (SplitN (API_ api) " " 3) in Hlen.
  split; [split|].
  - intros Herr. destruct (decide ((Count (API_ api) " " < 2)%nat)) as [|Hge]; [done|].
    exfalso.
    destruct (SplitN (API_ api) " " 3) as [|m [|p0 [|s [|d r]]]] eqn:Hsplit;
      cbn [length] in Hlen; try lia.
    rewrite (parseAPI_spec _ _ _ _ _ Hsplit) in Herr. cbn zeta in Herr.
    destruct (methodSlot (ToUpper m)); [|done].
    by destruct (slot_get _ _).
  - intros Hlt. rewrite parseAPI_short; [done|]. lia.
  - intros Hlt p. rewrite parseAPI_short by lia. cbn [fst].
    unfold itemAt, pathsOf. cbn.
    destruct (Paths (OpenAPI_ doc)); cbn; [done | by rewrite lookup_empty].
Qed.

End BuilderMore.

(** ** recursivePath *)

Section WalkFacts.
Import GoStd walk.
Variable FileURI : string -> string + string.
Variable Dir : string.
Variable Exts : list string.
Variable Recursive : bool.

Local Abbreviation walkFn := (walk.walkFn FileURI Dir Exts Recursive).
Local Abbreviation walk_ := (walk.walk FileURI Dir Exts Recursive).
Local Abbreviation each := (walk.each FileURI Dir Exts Recursive).
Local Abbreviation collect := (walk.collect FileURI Exts).
Local Abbreviation listed := (walk.listed FileURI Exts).

Lemma node_induction (P : node -> Prop) :
  (forall p, P (File p)) ->
  (forall p e, P (Broken p e)) ->
  (forall p r cs, Forall P cs -> P (Folder p r cs)) ->
  forall n, P n.
Proof.
  intros HF HB HD. fix IH 1. intros [p|p e|p r cs]; [apply HF | apply HB |].
  apply HD. induction cs as [|c cs IHcs]; constructor; [apply IH | exact IHcs].
Qed.

Lemma walk_Folder p rerr cs uris :
  walk_ (Folder p rerr cs) uris =
    let '(uris1, err1) := walkFn p (Some true) rerr uris in
    match rerr, err1 with
    | None, Nil => each cs uris1
    | _, _ => (uris1, err1)
    end.
Proof.
  cbn [walk.walk]. destruct (walkFn p (Some true) rerr uris) as [uris1 err1].
  destruct rerr; [done|]. by destruct err1.
Qed.

Lemma extIsEnabled_elem exts ext : extIsEnabled exts ext = true -> ext ∈ exts.
Proof.
  induction exts as [|v r IH]; cbn; [done|].
  destruct (String.eqb ext v) eqn:E.
  - apply eqb_string_true in E. subst. intros _. by left.
  - intros Hr. right. by apply IH.
Qed.

Lemma walkFn_listed path fi err uris uris' r :
  walkFn path fi err uris = (uris', r) ->
  exists ps new, ps `sublist_of` [path] /\ uris' = uris ++ new /\ listed ps new.
Proof.
  assert (Hkeep : exists ps new : list string,
            ps `sublist_of` [path] /\ uris = uris ++ new /\ listed ps new).
  { exists [], []. split; [apply sublist_nil_l|].
    split; [by rewrite app_nil_r | constructor]. }
  unfold walk.walkFn. destruct err; [by intros [= <- _]|].
  destruct (_ && _ && _); [by intros [= <- _]|].
  destruct (extIsEnabled Exts (Ext path)) eqn:Hen; [|by intros [= <- _]].
  destruct (FileURI path) as [uri|e] eqn:Huri; intros [= <- _]; [|done].
  exists [path], [uri]. split; [done|]. split; [done|].
  constructor; [|constructor]. split; [done | by apply extIsEnabled_elem].
Qed.

Lemma walk_listed n : forall uris uris' r,
  walk_ n uris = (uris', r) ->
  exists ps new,
    ps `sublist_of` allPaths n /\ uris' = uris ++ new /\ listed ps new.
Proof.
  induction n as [p|p e|p rerr cs IH] using node_induction; intros uris uris' r.
  - cbn [walk.walk allPaths]. apply walkFn_listed.
  - cbn [walk.walk allPaths]. apply walkFn_listed.
  - rewrite walk_Folder. cbn [allPaths].
    destruct (walkFn p (Some true) rerr uris) as [uris1 err1] eqn:Hfn.
    destruct (walkFn_listed _ _ _ _ _ _ Hfn) as (ps1 & new1 & Hs1 & -> & Hl1).
    assert (Hstop : exists ps new : list string,
              ps `sublist_of` p :: flat_map allPaths cs /\
              uris ++ new1 = uris ++ new /\ listed ps new).
    { exists ps1, new1. split; [|done].
      change (p :: flat_map allPaths cs) with ([p] ++ flat_map allPaths cs).
      by apply sublist_inserts_r. }
    destruct rerr; [by intros [= <- _]|].
    destruct err1; try by intros [= <- _].
    clear Hfn Hstop.
    assert (Heach : forall uris0 uris2 r2,
              each cs uris0 = (uris2, r2) ->
              exists ps new : list string,
                ps `sublist_of` flat_map allPaths cs /\
                uris2 = uris0 ++ new /\ listed ps new).
    { clear uris uris' r ps1 new1 Hs1 Hl1.
      induction IH as [|c cs Hc _ IHcs]; intros uris0 uris2 r2; cbn [walk.each].
      - intros [= <- _]. exists [], []. split; [done|].
        split; [by rewrite app_nil_r | constructor].
      - destruct (walk_ c uris0) as [uris1 err] eqn:Hw.
        destruct (Hc _ _ _ Hw) as (psc & newc & Hsc & -> & Hlc).
        assert (Hstop : exists ps new : list string,
                  ps `sublist_of` flat_map allPaths (c :: cs) /\
                  uris0 ++ newc = uris0 ++ new /\ listed ps new).
        { exists psc, newc. split; [|done]. cbn [flat_map].
          by apply sublist_inserts_r. }
        assert (Hgo : each cs (uris0 ++ newc) = (uris2, r2) ->
                exists ps new : list string,
                  ps `sublist_of` flat_map allPaths (c :: cs) /\
                  uris2 = uris0 ++ new /\ listed ps new).
        { intros Hr. destruct (IHcs _ _ _ Hr) as (psr & newr & Hsr & -> & Hlr).
          exists (psc ++ psr), (newc ++ newr). cbn [flat_map].
          split; [by apply sublist_app|].
          split; [by rewrite app_assoc | by apply Forall2_app]. }
        destruct err; [done | | by intros [= <- _]].
        destruct (descends c); [done | by intros [= <- _]]. }
    intros Hr. destruct (Heach _ _ _ Hr) as (ps2 & new2 & Hs2 & -> & Hl2).
    exists (ps1 ++ ps2), (new1 ++ new2).
    split; [|split; [by rewrite app_assoc | by apply Forall2_app]].
    change (p :: flat_map allPaths cs) with ([p] ++ flat_map allPaths cs).
    by apply sublist_app.
Qed.

(** X21. The URIs recursivePath returns are those of paths of the tree it
    walked, in the order of the walk (a path is listed at most as often as
    the walk meets it), each with an extension that is one of o.Exts. *)
Theorem recursivePath_listed tree uris :
  recursivePath FileURI Dir Exts Recursive tree = inl uris ->
  exists ps, ps `sublist_of` allPaths tree /\ listed ps uris.
Proof.
  unfold recursivePath.
  destruct (walk_ tree []) as [us r] eqn:Hw.
  destruct (walk_listed tree [] us r Hw) as (ps & new & Hs & -> & Hl).
  destruct r; intros [= <-]; by exists ps.
Qed.

Lemma each_flat cs : forall uris,
  Recursive = false ->
  Forall readable cs ->
  Forall (fun c => pathOf c <> Dir) cs ->
  each cs uris = collect (filePaths cs) uris.
Proof.
  induction cs as [|c cs IH]; intros uris Hrec Hread Hpath; [done|].
  apply Forall_cons in Hread as [Hc Hr]. apply Forall_cons in Hpath as [Hp Hq].
  cbn [walk.each]. destruct c as [p|p e|p rerr ds]; [| done |].
  - cbn [walk.walk filePaths walk.collect]. unfold walk.walkFn. cbn.
    destruct (extIsEnabled Exts (Ext p)); [|by apply IH].
    destruct (FileURI p); [by apply IH | done].
  - rewrite walk_Folder. cbn [filePaths] in *. cbn in Hp.
    destruct rerr; [done|].
    unfold walk.walkFn. replace (negb Recursive) with true by (by rewrite Hrec).
    apply eqb_string_false in Hp. rewrite Hp. cbn. by apply IH.
Qed.

(** X22. Without Recursive, recursivePath lists the directory itself and its
    plain files, in the order Walk meets them, keeping those with an
    enabled extension; the sub-directories are skipped with all they
    contain. *)
Theorem recursivePath_flat cs :
  Recursive = false ->
  Forall readable cs ->
  Forall (fun c => pathOf c <> Dir) cs ->
  recursivePath FileURI Dir Exts Recursive (Folder Dir None cs)
  = match collect (Dir :: filePaths cs) [] with
    | (uris, Err e) => inr e
    | (uris, _) => inl uris
    end.
Proof.
  intros Hrec Hread Hpath. unfold recursivePath. rewrite walk_Folder.
  unfold walk.walkFn. rewrite String.eqb_refl, andb_false_r.
  cbn [walk.collect].
  destruct (extIsEnabled Exts (Ext Dir)).
  - destruct (FileURI Dir) as [uri|e]; [|done]. by rewrite each_flat.
  - by rewrite each_flat.
Qed.

End WalkFacts.

(** ** The facts above on concrete inputs *)

Section MoreExamples.
Import GoStd gostrings notions.

Lemma servers_roundtrip_witness :
  mock.Set_ ∅ (mock.String_ (map_to_list twoServers)) = (twoServers, None).
Proof.
  apply (servers_roundtrip twoServers (map_to_list twoServers)).
  - reflexivity.
  - vm_compute. lia.
  - replace (map_to_list twoServers)
      with [("cdn", "http://localhost:8081"); ("api", "http://localhost:8080")]
      by reflexivity.
    repeat constructor.
  - replace (map_to_list twoServers)
      with [("cdn", "http://localhost:8081"); ("api", "http://localhost:8080")]
      by reflexivity.
    repeat constructor; cbn; discriminate.
Defined.

Lemma servers_single_refused_witness :
  mock.Set_ ∅ (mock.String_ [("api", "http://localhost:8080")])
  = (∅, Some mock.ErrInvalidFormat).
Proof.
  apply (servers_single_refused ∅ ("api", "http://localhost:8080")); reflexivity.
Defined.

Lemma servers_set_stops_witness :
  mock.Set_ ∅ (Join (["a=1"] ++ "b" :: ["c=3"]) ",")
  = (foldl mock.store ∅ ["a=1"], Some mock.ErrInvalidValue).
Proof.
  apply (servers_set_stops ∅ ["a=1"] "b" ["c=3"]).
  - repeat constructor.
  - cbn. lia.
  - discriminate.
  - repeat constructor.
  - repeat constructor.
  - vm_compute. discriminate.
Defined.

Lemma findEndElement_flat_witness :
  token.findEndElement
    ([token.Tok token.TOther;
      token.Tok (token.TStart (token.mkStart "b" true
                                 (build.mkPosition 0 3 3) (build.mkPosition 0 7 7)))]
     ++ token.Tok (token.TEnd (token.mkEnd "a" (build.mkPosition 0 7 7)
                                 (build.mkPosition 0 11 11)))
        :: [token.Tok token.TOther])
    (token.mkStart "a" false (build.mkPosition 0 0 0) (build.mkPosition 0 3 3))
  = (None, [token.Tok token.TOther]).
Proof.
  apply (findEndElement_flat
           (token.mkStart "a" false (build.mkPosition 0 0 0) (build.mkPosition 0 3 3))).
  - repeat constructor. cbn. discriminate.
  - reflexivity.
Defined.

Lemma findEndElement_child_witness :
  token.findEndElement
    ([token.Tok (token.TStart (token.mkStart "b" false
                                 (build.mkPosition 0 3 3) (build.mkPosition 0 6 6)))]
     ++ token.Tok (token.TEnd (token.mkEnd "b" (build.mkPosition 0 6 6)
                                 (build.mkPosition 0 10 10)))
        :: [token.Tok (token.TEnd (token.mkEnd "a" (build.mkPosition 0 10 10)
                                     (build.mkPosition 0 14 14)))])
    (token.mkStart "a" false (build.mkPosition 0 0 0) (build.mkPosition 0 3 3))
  = (Some (token.NewError (build.mkPosition 0 0 0) (build.mkPosition 0 3 3)), []).
Proof.
  apply (findEndElement_child
           (token.mkStart "a" false (build.mkPosition 0 0 0) (build.mkPosition 0 3 3))).
  - repeat constructor. cbn. discriminate.
  - cbn. discriminate.
  - repeat constructor.
Defined.

Lemma BeginFunc_false_restores_witness :
  php.newPHPDocBlock = php.newPHPDocBlock /\
  model.mkLexer "<<<" [] 0 = model.mkLexer "<<<" [] 0.
Proof.
  apply (BeginFunc_false_restores php.newPHPDocBlock (model.mkLexer "<<<" [] 0)
           php.newPHPDocBlock (model.mkLexer "<<<" [] 0)).
  reflexivity.
Defined.

Lemma BeginFunc_lone_quote_panics_witness :
  php.BeginFunc php.newPHPDocBlock
    (model.mkLexer ("<<<'" +:+ php.nl +:+ "x") [] 0) = Panic.
Proof.
  apply (BeginFunc_lone_quote_panics php.newPHPDocBlock
           (model.mkLexer ("<<<'" +:+ php.nl +:+ "x") [] 0) (php.nl +:+ "x"));
    reflexivity.
Defined.

Lemma BeginFunc_nowdoc_witness :
  php.BeginFunc php.newPHPDocBlock (model.mkLexer phpSource [] 0)
  = Ret (true, phpEOT, model.advance 3 (model.mkLexer phpSource [] 0)).
Proof.
  apply (BeginFunc_nowdoc php.newPHPDocBlock (model.mkLexer phpSource [] 0) "EOT"
           (php.nl +:+ "abc" +:+ php.nl +:+ "EOT;" +:+ php.nl +:+ "$x"));
    reflexivity.
Defined.

Lemma EndFunc_first_terminator_witness :
  php.EndFunc phpEOT (model.mkLexer phpSource [] 3)
  = (true,
     model.advance (9 + php.endLen phpEOT phpSource (3 + 9))
       (model.mkLexer phpSource [] 3)).
Proof.
  apply (EndFunc_first_terminator phpEOT (model.mkLexer phpSource [] 3) 9).
  - vm_compute. lia.
  - intros i Hi. do 9 (destruct i as [|i]; [reflexivity|]). lia.
  - reflexivity.
Defined.

Lemma EndFunc_unterminated_witness :
  exists l',
    php.EndFunc phpEOT (model.mkLexer ("<<<'EOT'" +:+ php.nl +:+ "abc") [] 3)
    = (false, l') /\
    model.AtEOF l' = true /\
    model.ldata l' = "<<<'EOT'" +:+ php.nl +:+ "abc".
Proof.
  apply (EndFunc_unterminated phpEOT
           (model.mkLexer ("<<<'EOT'" +:+ php.nl +:+ "abc") [] 3)).
  intros i Hi. do 9 (destruct i as [|i]; [reflexivity|]).
  vm_compute in Hi. lia.
Defined.

Lemma Sanitize_accepts_witness :
  exists language o',
    Some (sanitize.mkInput "go" "src" [".go"; ".mod"] false "utf-8"
            model.cBlocks ["src/a.go"] (Some "UTF-8")) = Some o' /\
    sanitize.Dir goInput <> "" /\ fileExists (sanitize.Dir goInput) = true /\
    sanitize.Lang goInput <> "" /\
    langGet (sanitize.Lang goInput) = Some language /\
    sanitize.Lang o' = sanitize.Lang goInput /\
    sanitize.Dir o' = sanitize.Dir goInput /\
    sanitize.Recursive o' = sanitize.Recursive goInput /\
    sanitize.Encoding o' = sanitize.Encoding goInput /\
    sanitize.blocks o' = sanitize.LBlocks language /\
    sanitize.Exts o'
    = (match sanitize.Exts goInput with
       | [] => sanitize.LExts language
       | _ => sanitize.normExts (sanitize.Exts goInput)
       end) /\
    sanitize.paths o' <> [] /\
    pathsOfDir
      (sanitize.mkInput (sanitize.Lang goInput) (sanitize.Dir goInput)
         (sanitize.Exts o') (sanitize.Recursive goInput)
         (sanitize.Encoding goInput) (sanitize.LBlocks language)
         (sanitize.paths goInput) (sanitize.encoding goInput))
    = inl (sanitize.paths o') /\
    (if String.eqb (sanitize.Encoding goInput) ""
     then sanitize.encoding o' = sanitize.encoding goInput
     else exists enc, iana (sanitize.Encoding goInput) = inl enc /\
                      sanitize.encoding o' = Some enc).
Proof.
  apply (Sanitize_accepts fileExists langGet pathsOfDir iana goInput
           (Some (sanitize.mkInput "go" "src" [".go"; ".mod"] false "utf-8"
                    model.cBlocks ["src/a.go"] (Some "UTF-8")))).
  reflexivity.
Defined.

Lemma printLanguages_aligned_witness :
  (apidocmain.printLanguages (fun _ _ => true)
     [apidocmain.mkLanguage "go" "Go" [".go"];
      apidocmain.mkLanguage "php" "PHP" [".php"; ".inc"]]).2 = Ret tt /\
  apidocmain.printLanguages (fun _ _ => false)
    [apidocmain.mkLanguage "go" "Go" [".go"];
     apidocmain.mkLanguage "php" "PHP" [".php"; ".inc"]] = ([], Panic).
Proof.
  split.
  - destruct (printLanguages_aligned (fun _ _ => true)
                [apidocmain.mkLanguage "go" "Go" [".go"];
                 apidocmain.mkLanguage "php" "PHP" [".php"; ".inc"]])
      as (ls & wn & wd & _ & _ & Hok & _).
    by rewrite Hok.
  - destruct (printLanguages_aligned (fun _ _ => false)
                [apidocmain.mkLanguage "go" "Go" [".go"];
                 apidocmain.mkLanguage "php" "PHP" [".php"; ".inc"]])
      as (ls & wn & wd & _ & Hf & _ & Hfail).
    destruct ls as [|row ls]; [by apply Forall2_nil_inv_r in Hf|].
    apply (Hfail 0%nat row); [reflexivity | reflexivity |].
    intros i r Hi. lia.
Defined.

Lemma api_block_never_requests_witness :
  parser.request (parser.set_route "GET" "/x" "one" parser.api0) = None /\
  parser.method (parser.set_route "GET" "/x" "one" parser.api0) = "GET" /\
  parser.path (parser.set_route "GET" "/x" "one" parser.api0) = "/x".
Proof.
  destruct (api_block_never_requests model.split model.SemVerValid 3
              (parser.tagAt 1 "@api" "Get /x one")
              [parser.tagAt 2 "@apiRequest" "application/json object"]
              (parser.set_route "GET" "/x" "one" parser.api0) [] None)
    as (Hreq & _ & Hroute).
  - reflexivity.
  - repeat constructor.
  - reflexivity.
  - split; [exact Hreq|].
    destruct (Hroute eq_refl) as (_ & d0 & d1 & d2 & Hsplit & _ & Hm & Hp & _).
    injection Hsplit as <- <- <-.
    split; [|by rewrite Hp].
    apply Hm; [|reflexivity].
    unfold types.methods. rewrite !elem_of_cons. by left.
Defined.

Lemma first_tag_invalid_witness :
  parser.parser_parseAPI model.split model.SemVerValid 2
    ([parser.tagAt 1 "@apiResponse" "200 application/json object"]
     ++ parser.tagAt 2 "@apiGroup" "users"
        :: [parser.tagAt 3 "@api" "GET /x one"])
  = Ret (parser.api0, [parser.tagAt 3 "@api" "GET /x one"],
         Some (parser.syntaxError (parser.tagAt 2 "@apiGroup" "users")
                 (parser.Sprintf parser.ErrInvalidTag "@apiGroup"))).
Proof.
  apply (first_tag_invalid model.split model.SemVerValid 2
           [parser.tagAt 1 "@apiResponse" "200 application/json object"]
           (parser.tagAt 2 "@apiGroup" "users")
           [parser.tagAt 3 "@api" "GET /x one"]).
  - repeat constructor.
  - reflexivity.
  - cbn. discriminate.
  - cbn. discriminate.
  - cbn. discriminate.
  - cbn. lia.
Defined.

Lemma apiTags_whole_or_never_witness :
  (IndexByte ",a" "," <= 0 ->
   parser.apiTag model.split model.SemVerValid 1 parser.api0
     (parser.tagAt 1 "@apiTags" ",a")
   = Ret (parser.set_tags [",a"] parser.api0, None)) /\
  (0 < IndexByte ",a" "," ->
   forall r, parser.apiTag model.split model.SemVerValid 0 parser.api0
               (parser.tagAt 1 "@apiTags" ",a") <> Ret r).
Proof.
  apply (apiTags_whole_or_never model.split model.SemVerValid 0 parser.api0
           (parser.tagAt 1 "@apiTags" ",a")); reflexivity.
Defined.

Lemma adds_commute_witness :
  (types.parseAPI (types.parseAPI types.doc0 (types.apiOf "GET /x one")).1
     (types.apiOf "POST /x two")).1
  = (types.parseAPI (types.parseAPI types.doc0 (types.apiOf "POST /x two")).1
       (types.apiOf "GET /x one")).1.
Proof.
  apply (adds_commute types.doc0 (types.apiOf "GET /x one")
           (types.apiOf "POST /x two") "GET" "/x" "one" "POST" "/x" "two"
           types.SGet types.SPost); try reflexivity.
  right. discriminate.
Defined.

Lemma recursivePath_listed_witness :
  exists ps,
    ps `sublist_of` ["src"; "src/a.go"; "src/sub"; "src/sub/b.go"; "src/c.txt"] /\
    walk.listed fileURI [".go"] ps ["file://src/a.go"; "file://src/sub/b.go"].
Proof.
  apply (recursivePath_listed fileURI "src" [".go"] true srcTree).
  reflexivity.
Defined.
Lemma recursivePath_flat_witness :
  walk.recursivePath fileURI "src" [".go"] false
    (walk.Folder "src" None
       [walk.File "src/a.go";
        walk.Folder "src/sub" None [walk.File "src/sub/b.go"];
        walk.File "src/c.txt"])
  = match walk.collect fileURI [".go"]
            ("src" :: walk.filePaths
                        [walk.File "src/a.go";
                         walk.Folder "src/sub" None [walk.File "src/sub/b.go"];
                         walk.File "src/c.txt"]) [] with
    | (uris, walk.Err e) => inr e
    | (uris, _) => inl uris
    end.
Proof.
  apply (recursivePath_flat fileURI "src" [".go"] false).
  - reflexivity.
  - repeat constructor.
  - repeat constructor; discriminate.
Defined.

(** Without Recursive, the Go file of the sub-directory is not listed. *)
Example recursivePath_flat_src :
  walk.recursivePath fileURI "src" [".go"] false srcTree = inl ["file://src/a.go"].
Proof. reflexivity. Qed.

End MoreExamples.
